(** * Form auto-fill core of the tax assistant (app11.py)

    A shallow embedding of the text-processing core of [app11.py]:
    the flat-form label enumerator, the user-data line parser, the parsing
    of the model response, the data reconstructor and the coordinate search
    of the flat-form filler, together with the properties the specification
    states about them.

    Python strings are sequences of Unicode code points; they are modelled
    as [list N].  Dictionaries are [gmap]s, except where the iteration
    order of the dictionary decides the result: the field mapping and the
    user data of the filler are the lists of their items. *)

From Stdlib Require Import NArith Lia Ascii String.
From stdpp Require Import gmap strings list.

Local Open Scope N_scope.

(** ** Python strings *)

Abbreviation pystr := (list N).

(** An ASCII literal as a Python [str]. *)
Definition py (s : string) : pystr :=
  (λ a, N_of_ascii a) <$> list_ascii_of_string s.

Module Str.

(** [str.isspace] on one code point, the table of CPython's
    [_PyUnicode_IsWhitespace]; the regex class [\s] uses the same table. *)
Definition isspace (c : N) : bool :=
  ((9 <=? c) && (c <=? 13)) || ((28 <=? c) && (c <=? 31)) || (c =? 32)
  || (c =? 133) || (c =? 160) || (c =? 5760)
  || ((8192 <=? c) && (c <=? 8202)) || (c =? 8232) || (c =? 8233)
  || (c =? 8239) || (c =? 8287) || (c =? 12288).

(** The line boundaries of [str.splitlines]. *)
Definition is_linebreak (c : N) : bool :=
  ((10 <=? c) && (c <=? 13)) || ((28 <=? c) && (c <=? 30))
  || (c =? 133) || (c =? 8232) || (c =? 8233).

(** [s.splitlines()]: [cur] is the line read so far, in reverse.  A
    carriage return directly followed by a line feed is one boundary, and
    no empty last line is produced. *)
Fixpoint splitlines_from (cur : pystr) (s : pystr) : list pystr :=
  match s with
  | [] => match cur with [] => [] | _ => [rev cur] end
  | c :: s' =>
      if is_linebreak c then
        match c, s' with
        | 13, 10 :: s'' => rev cur :: splitlines_from [] s''
        | _, _ => rev cur :: splitlines_from [] s'
        end
      else splitlines_from (c :: cur) s'
  end.

Definition splitlines (s : pystr) : list pystr := splitlines_from [] s.

Fixpoint lstrip_by (p : N → bool) (s : pystr) : pystr :=
  match s with
  | c :: s' => if p c then lstrip_by p s' else s
  | [] => []
  end.

Definition rstrip_by (p : N → bool) (s : pystr) : pystr :=
  rev (lstrip_by p (rev s)).

Definition strip_by (p : N → bool) (s : pystr) : pystr :=
  rstrip_by p (lstrip_by p s).

(** [s.strip()] *)
Definition strip (s : pystr) : pystr := strip_by isspace s.

(** [s.strip(chars)] *)
Definition strip_chars (chars : pystr) (s : pystr) : pystr :=
  strip_by (λ c, bool_decide (c ∈ chars)) s.

(** [s.split()]: the maximal runs of non-whitespace code points. *)
Fixpoint split_from (cur : pystr) (s : pystr) : list pystr :=
  match s with
  | [] => match cur with [] => [] | _ => [rev cur] end
  | c :: s' =>
      if isspace c then
        match cur with
        | [] => split_from [] s'
        | _ => rev cur :: split_from [] s'
        end
      else split_from (c :: cur) s'
  end.

Definition split (s : pystr) : list pystr := split_from [] s.

(** [sep.join(parts)] *)
Fixpoint join (sep : pystr) (parts : list pystr) : pystr :=
  match parts with
  | [] => []
  | [w] => w
  | w :: ws => w ++ sep ++ join sep ws
  end.

(** [a.startswith(b)] and [b in a] *)
Fixpoint startswith (a b : pystr) : bool :=
  match b, a with
  | [], _ => true
  | y :: b', x :: a' => (x =? y) && startswith a' b'
  | _ :: _, [] => false
  end.

Fixpoint contains (a b : pystr) : bool :=
  startswith a b || match a with [] => false | _ :: a' => contains a' b end.

(** [s.lower()] when [s] is ASCII text. *)
Definition ascii_lower (s : pystr) : pystr :=
  (λ c, if (65 <=? c) && (c <=? 90) then c + 32 else c) <$> s.

End Str.

(** ** The fragment of Python's [re] the program uses

    A backtracking matcher in continuation-passing style.  Quantifiers
    apply to a single character class, as in every pattern of the program,
    so the matcher is structurally recursive. *)

Module Re.

Inductive regex :=
| Eps                                        (* the empty pattern *)
| Chr (p : N → bool)                         (* one code point in a class *)
| Rep (p : N → bool) (min : nat) (greedy : bool)
                                             (* [p{min,}] or [p{min,}?] *)
| Seq (r1 r2 : regex)
| Opt (r : regex)                            (* [(?:r)?] *)
| Group (n : nat) (r : regex)                (* capturing group [n] *)
| Bol                                        (* [^] *)
| Eol.                                       (* [$] *)

(** The groups captured so far, the most recent first. *)
Definition captures := list (nat * pystr).

Fixpoint group (n : nat) (cs : captures) : option pystr :=
  match cs with
  | [] => None
  | (m, t) :: cs' => if (m =? n)%nat then Some t else group n cs'
  end.

Section Matcher.
Context {R : Type}.

Definition cont := pystr → nat → captures → option R.

(** First alternative if it succeeds, otherwise the second. *)
Definition orelse (a : option R) (b : unit → option R) : option R :=
  match a with Some x => Some x | None => b tt end.

Fixpoint rep (p : N → bool) (greedy : bool) (min : nat)
    (s : pystr) (pos : nat) (cs : captures) (k : cont) {struct s}
    : option R :=
  match min, s with
  | O, [] => k [] pos cs
  | O, c :: s' =>
      if greedy then
        orelse (if p c then rep p greedy O s' (S pos) cs k else None)
               (λ _, k s pos cs)
      else
        orelse (k s pos cs)
               (λ _, if p c then rep p greedy O s' (S pos) cs k else None)
  | S _, [] => None
  | S m, c :: s' => if p c then rep p greedy m s' (S pos) cs k else None
  end.

(** [rmatch r s pos cs k]: match [r] against [s], the suffix of the
    subject at offset [pos]. *)
Fixpoint rmatch (r : regex) (s : pystr) (pos : nat) (cs : captures)
    (k : cont) : option R :=
  match r with
  | Eps => k s pos cs
  | Chr p =>
      match s with
      | c :: s' => if p c then k s' (S pos) cs else None
      | [] => None
      end
  | Rep p min greedy => rep p greedy min s pos cs k
  | Seq r1 r2 => rmatch r1 s pos cs (λ s1 p1 c1, rmatch r2 s1 p1 c1 k)
  | Opt r1 => orelse (rmatch r1 s pos cs k) (λ _, k s pos cs)
  | Group n r1 =>
      rmatch r1 s pos cs
        (λ s1 p1 c1, k s1 p1 ((n, take (p1 - pos)%nat s) :: c1))
  | Bol => if (pos =? 0)%nat then k s pos cs else None
  | Eol =>
      match s with
      | [] | [10] => k s pos cs
      | _ => None
      end
  end.
End Matcher.

(** The end offset and the groups of a match of [r] starting at offset
    [pos], where [s] is the rest of the subject from [pos] on. *)
Definition match_at (r : regex) (s : pystr) (pos : nat)
    : option (nat * captures) :=
  rmatch r s pos [] (λ _ p cs, Some (p, cs)).

(** [re.match(r, s)] *)
Definition match_ (r : regex) (s : pystr) : option (nat * captures) :=
  match_at r s 0.

(** [re.search(r, s)]: the leftmost match, as (start, end, groups). *)
Fixpoint search_from (r : regex) (s : pystr) (pos : nat)
    : option (nat * nat * captures) :=
  match match_at r s pos with
  | Some (e, cs) => Some (pos, e, cs)
  | None =>
      match s with
      | [] => None
      | _ :: s' => search_from r s' (S pos)
      end
  end.

Definition search (r : regex) (s : pystr) : option (nat * nat * captures) :=
  search_from r s 0.

(** [re.findall(r, s)] for a pattern with one group: the text of group 1
    of the successive non-overlapping matches, scanning from the left.
    [skip] counts the code points still covered by the previous match. *)
Fixpoint findall_from (r : regex) (s : pystr) (pos skip : nat)
    : list pystr :=
  match skip with
  | S skip' =>
      match s with
      | [] => []
      | _ :: s' => findall_from r s' (S pos) skip'
      end
  | O =>
      match match_at r s pos with
      | Some (e, cs) =>
          default [] (group 1 cs) ::
          match s with
          | [] => []
          | _ :: s' => findall_from r s' (S pos) (e - pos - 1)
          end
      | None =>
          match s with
          | [] => []
          | _ :: s' => findall_from r s' (S pos) 0
          end
      end
  end.

Definition findall (r : regex) (s : pystr) : list pystr :=
  findall_from r s 0 0.

(** A pattern written as a sequence of items. *)
Fixpoint cat (rs : list regex) : regex :=
  match rs with
  | [] => Eps
  | [r] => r
  | r :: rs' => Seq r (cat rs')
  end.

(** Character classes. *)
Definition chr (c : N) : N → bool := λ x, x =? c.
Definition alpha (c : N) : bool :=
  ((65 <=? c) && (c <=? 90)) || ((97 <=? c) && (c <=? 122)).
(** [.] without and with [re.DOTALL]. *)
Definition dot (c : N) : bool := negb (c =? 10).
Definition any (c : N) : bool := true.

End Re.

(** ** Slot enumerator, flat-form variant: [extract_labels_from_text] *)

Module Labels.

(** [\d]: the ASCII digits, and beyond ASCII the decimal digits of the
    Unicode database, which is the table [nd]. *)
Definition digit (nd : N → bool) (c : N) : bool :=
  if c <? 128 then (48 <=? c) && (c <=? 57) else nd c.

(** The class "[A-Za-z\s\/\(\)]" *)
Definition label_class (c : N) : bool :=
  Re.alpha c || Str.isspace c || (c =? 47) || (c =? 40) || (c =? 41).

(** The pattern: an optional, non-capturing "\d+\.\s*", then group 1,
    "[A-Za-z\s\/\(\)]+", then ":". *)
Definition label_re (nd : N → bool) : Re.regex :=
  Re.cat [ Re.Opt (Re.cat [ Re.Rep (digit nd) 1 true; Re.Chr (Re.chr 46);
                            Re.Rep Str.isspace 0 true ]);
           Re.Group 1 (Re.Rep label_class 1 true);
           Re.Chr (Re.chr 58) ].

(** The body of the innermost loop: one match of one line. *)
Definition add_match (labels : gset pystr) (m : pystr) : gset pystr :=
  let clean := Str.strip m in
  if (1 <? length clean)%nat then {[ clean ]} ∪ labels else labels.

Definition add_line (nd : N → bool) (labels : gset pystr) (line : pystr)
    : gset pystr :=
  foldl add_match labels (Re.findall (label_re nd) line).

(** A page is the result of [page.extract_text()], which may be [None]. *)
Definition add_page (nd : N → bool) (labels : gset pystr)
    (page : option pystr) : gset pystr :=
  let text := default [] page in
  foldl (add_line nd) labels (Str.splitlines text).

Definition label_set (nd : N → bool) (pages : list (option pystr))
    : gset pystr :=
  foldl (add_page nd) ∅ pages.

(** [list(labels)]: the elements of the set, in no particular order. *)
Definition extract_labels_from_text (nd : N → bool)
    (pages : list (option pystr)) : list pystr :=
  elements (label_set nd pages).

End Labels.

(** ** User-data parser: [extract_all_fields_from_text] *)

Module Parser.

Inductive strategy := Colon | DottedLeader | Whitespace.

(** The class "[A-Za-z\s\/\(\)\[\]\-\.]" *)
Definition key_class (c : N) : bool :=
  Re.alpha c || Str.isspace c || (c =? 47) || (c =? 40) || (c =? 41)
  || (c =? 91) || (c =? 93) || (c =? 45) || (c =? 46).

(** The class of the two separators: the ASCII colon and the full-width
    colon U+FF1A. *)
Definition colon_class (c : N) : bool := (c =? 58) || (c =? 65306).

(** The class "[\.\-]" *)
Definition leader_class (c : N) : bool := (c =? 46) || (c =? 45).

(** The pattern "^([A-Za-z\s\/\(\)\[\]\-\.]+?)[:：]\s*(.+)$" *)
Definition colon_re : Re.regex :=
  Re.cat [ Re.Bol; Re.Group 1 (Re.Rep key_class 1 false);
           Re.Chr colon_class; Re.Rep Str.isspace 0 true;
           Re.Group 2 (Re.Rep Re.dot 1 true); Re.Eol ].

(** The pattern "^([A-Za-z\s\/\(\)\[\]\-\.]+?)\s*[\.\-]{2,}\s*(.+)$" *)
Definition dots_re : Re.regex :=
  Re.cat [ Re.Bol; Re.Group 1 (Re.Rep key_class 1 false);
           Re.Rep Str.isspace 0 true; Re.Rep leader_class 2 true;
           Re.Rep Str.isspace 0 true;
           Re.Group 2 (Re.Rep Re.dot 1 true); Re.Eol ].

(** [label = m.group(1).strip(); value = m.group(2).strip()] *)
Definition groups_entry (cs : Re.captures) : pystr * pystr :=
  (Str.strip (default [] (Re.group 1 cs)),
   Str.strip (default [] (Re.group 2 cs))).

(** [reversed(range(1, min(5, n)))] *)
Definition candidates (n : nat) : list nat :=
  rev (seq 1 (Nat.min 5 n - 1)).

(** [" ".join(words[:i])] and [" ".join(words[i:])] *)
Definition split_at (words : list pystr) (i : nat) : pystr * pystr :=
  (Str.join [32] (take i words), Str.join [32] (drop i words)).

(** [len(label_candidate) > 1 and len(value_candidate) > 1] *)
Definition acceptable (e : pystr * pystr) : bool :=
  (1 <? length e.1)%nat && (1 <? length e.2)%nat.

(** The loop over the candidate label lengths, which stops at the first
    acceptable split. *)
Fixpoint first_split (words : list pystr) (cands : list nat)
    : option (pystr * pystr) :=
  match cands with
  | [] => None
  | i :: cands' =>
      if acceptable (split_at words i) then Some (split_at words i)
      else first_split words cands'
  end.

Definition whitespace_split (words : list pystr) : option (pystr * pystr) :=
  first_split words (candidates (length words)).

(** The three strategies on one stripped, non-empty line, with the
    strategy that produced the entry. *)
Definition parse_line (line : pystr) : option (strategy * (pystr * pystr)) :=
  match Re.match_ colon_re line with
  | Some (_, cs) => Some (Colon, groups_entry cs)
  | None =>
      match Re.match_ dots_re line with
      | Some (_, cs) => Some (DottedLeader, groups_entry cs)
      | None =>
          match whitespace_split (Str.split line) with
          | Some e => Some (Whitespace, e)
          | None => None
          end
      end
  end.

(** [line.strip(chars).strip()] with the bullet U+2022 and the space as
    [chars] *)
Definition clean_line (line : pystr) : pystr :=
  Str.strip (Str.strip_chars [8226; 32] line).

(** The body of the loop over the lines. *)
Definition add_line (data : gmap pystr pystr) (line : pystr)
    : gmap pystr pystr :=
  match clean_line line with
  | [] => data
  | l =>
      match parse_line l with
      | Some (_, (label, value)) => <[ label := value ]> data
      | None => data
      end
  end.

Definition extract_all_fields_from_text (text : pystr) : gmap pystr pystr :=
  foldl add_line ∅ (Str.splitlines text).

End Parser.


(** ** Field mapper: the parsing of the model response in
    [get_field_mapping_from_llm] *)

Module Mapper.

(** The pattern "\{.*\}" under [re.DOTALL]. *)
Definition brace_re : Re.regex :=
  Re.cat [ Re.Chr (Re.chr 123); Re.Rep Re.any 0 true; Re.Chr (Re.chr 125) ].

(** [match.group(0)] of [re.search] on the response, when there is a match. *)
Definition dict_str (content : pystr) : option pystr :=
  match Re.search brace_re content with
  | Some (b, e, _) => Some (take (e - b)%nat (drop b content))
  | None => None
  end.

Section Response.
(** [ast.literal_eval] is Python's; [None] stands for any exception it
    raises, which the [except Exception] clause catches.  [empty] is the
    empty dictionary. *)
Context {mapping : Type} (empty : mapping).
Variable literal_eval : pystr → option mapping.

(** The function from the response of the model on: from
    [content = ....strip()] to the [return]s. *)
Definition get_field_mapping_from_llm (response : pystr) : mapping :=
  let content := Str.strip response in
  match dict_str content with
  | Some s =>
      match literal_eval s with
      | Some field_mapping => field_mapping
      | None => empty
      end
  | None => empty
  end.
End Response.

(** What the specification asks for instead: the first balanced brace
    group of the text.  [balanced_end depth s] is the number of code points
    up to and including the brace that closes [depth] open ones. *)
Fixpoint balanced_end (depth : nat) (s : pystr) : option nat :=
  match s with
  | [] => None
  | c :: s' =>
      if c =? 123 then S <$> balanced_end (S depth) s'
      else if c =? 125 then
        match depth with
        | 1%nat => Some 1%nat
        | O => None
        | S d => S <$> balanced_end d s'
        end
      else S <$> balanced_end depth s'
  end.

Fixpoint first_balanced (s : pystr) : option pystr :=
  match s with
  | [] => None
  | c :: s' =>
      match (if c =? 123 then balanced_end 1 s' else None) with
      | Some n => Some (c :: take n s')
      | None => first_balanced s'
      end
  end.

End Mapper.

(** ** Python values and exceptions *)

Inductive builtin := BLen.
Inductive strmethod := MStrip.

(** The values this file represents: those of the expression fragment
    below, and [bytes]. *)
Inductive pyval :=
| VNone
| VBool (b : bool)
| VInt (z : Z)
| VStr (s : pystr)
| VBytes (b : list N)
| VBuiltin (f : builtin)                 (* a function of [builtins] *)
| VMethod (self : pystr) (m : strmethod). (* a bound method of a [str] *)

(** [bool(v)] *)
Definition truthy (v : pyval) : bool :=
  match v with
  | VNone => false
  | VBool b => b
  | VInt z => negb (z =? 0)%Z
  | VStr s => match s with [] => false | _ => true end
  | VBytes b => match b with [] => false | _ => true end
  | VBuiltin _ | VMethod _ _ => true
  end.

(** The classes of exceptions: those of the first two lines derive from
    [Exception], [OtherException] standing for every such class not named
    here; those of the third line derive from [BaseException] only,
    [OtherBaseException] standing for the ones not named. *)
Inductive pyexn :=
| SyntaxError | NameError | TypeError | AttributeError | ValueError
| IndexError | OtherException
| SystemExit | KeyboardInterrupt | OtherBaseException.

(** [isinstance(e, Exception)] *)
Definition is_Exception (e : pyexn) : bool :=
  match e with
  | SystemExit | KeyboardInterrupt | OtherBaseException => false
  | _ => true
  end.

Inductive outcome :=
| Returns (v : pyval)
| Raises (e : pyexn).

(** ** A fragment of Python's [eval]

    Names, the constants [None], [True] and [False], string literals
    without escapes, [+], parentheses, attribute access and calls with at
    most one argument, in sources of [max_tokens] tokens at most.  [None] as
    a result means that the source is outside the fragment: nothing is said
    about it.  The expressions of the fragment have no effect: they read the
    locals and change nothing. *)

Module PyExpr.

Inductive token :=
| TName (x : pystr) | TStr (s : pystr) | TPlus | TLParen | TRParen | TDot.

Inductive mode :=
| Start
| InName (acc : pystr)
| InStr (quote : N) (acc : pystr).

Definition name_start (c : N) : bool := Re.alpha c || (c =? 95).
Definition name_char (c : N) : bool :=
  name_start c || ((48 <=? c) && (c <=? 57)).
Definition is_quote (c : N) : bool := (c =? 39) || (c =? 34).
(** A code point a literal may hold here: printable ASCII, no backslash. *)
Definition literal_char (c : N) : bool :=
  (32 <=? c) && (c <=? 126) && negb (c =? 92).

(** A code point read between two tokens: the token it is, if it is one
    alone, and how to go on. *)
Definition start_char (c : N) : option (list token * mode) :=
  if (c =? 32) || (c =? 9) then Some ([], Start)
  else if name_start c then Some ([], InName [c])
  else if is_quote c then Some ([], InStr c [])
  else if c =? 43 then Some ([TPlus], Start)
  else if c =? 40 then Some ([TLParen], Start)
  else if c =? 41 then Some ([TRParen], Start)
  else if c =? 46 then Some ([TDot], Start)
  else None.

Fixpoint lex (m : mode) (s : pystr) : option (list token) :=
  match s with
  | [] =>
      match m with
      | Start => Some []
      | InName acc => Some [TName (rev acc)]
      | InStr _ _ => None
      end
  | c :: s' =>
      match m with
      | InStr q acc =>
          if c =? q then (λ ts, TStr (rev acc) :: ts) <$> lex Start s'
          else if literal_char c then lex (InStr q (c :: acc)) s'
          else None
      | InName acc =>
          if name_char c then lex (InName (c :: acc)) s'
          else if is_quote c then None
          else
            match start_char c with
            | Some (t, m') => (λ ts, TName (rev acc) :: t ++ ts) <$> lex m' s'
            | None => None
            end
      | Start =>
          match start_char c with
          | Some (t, m') => (λ ts, t ++ ts) <$> lex m' s'
          | None => None
          end
      end
  end.

(** The keywords, and [__debug__], which the compiler replaces by a
    constant: no variable can have these names. *)
Definition reserved_words : list pystr :=
  py <$> [ "False"; "None"; "True"; "and"; "as"; "assert"; "async"; "await";
           "break"; "class"; "continue"; "def"; "del"; "elif"; "else";
           "except"; "finally"; "for"; "from"; "global"; "if"; "import";
           "in"; "is"; "lambda"; "nonlocal"; "not"; "or"; "pass"; "raise";
           "return"; "try"; "while"; "with"; "yield"; "__debug__" ]%string.

Definition reserved (x : pystr) : bool := bool_decide (x ∈ reserved_words).

(** An ASCII identifier that can name a variable: an ASCII letter or an
    underscore, then ASCII letters, digits and underscores.  Python has
    identifiers with other letters too; they are not in the fragment. *)
Definition is_identifier (x : pystr) : bool :=
  match x with
  | c :: r => name_start c && forallb name_char r
  | [] => false
  end && negb (reserved x).

Inductive expr :=
| EName (x : pystr)
| EConst (v : pyval)
| EStr (s : pystr)
| EAdd (a b : expr)
| EAttr (a : expr) (x : pystr)
| ECall0 (f : expr)                (* [f()] *)
| ECall1 (f : expr) (arg : expr).   (* [f(arg)] *)

Inductive parsed (A : Type) :=
| Parsed (a : A)
| Invalid          (* a [SyntaxError] *)
| Outside.         (* not in the fragment *)
Arguments Parsed {A} a.
Arguments Invalid {A}.
Arguments Outside {A}.

Definition pbind {A B} (x : parsed A) (f : A → parsed B) : parsed B :=
  match x with
  | Parsed a => f a
  | Invalid => Invalid
  | Outside => Outside
  end.

Definition atom_of_name (x : pystr) : parsed expr :=
  if bool_decide (x = py "None") then Parsed (EConst VNone)
  else if bool_decide (x = py "True") then Parsed (EConst (VBool true))
  else if bool_decide (x = py "False") then Parsed (EConst (VBool false))
  else if reserved x then Outside
  else Parsed (EName x).

(** Recursive descent; every call takes one unit of [fuel], and a parse
    that runs out of it is outside the fragment. *)
Fixpoint parse_sum (fuel : nat) (ts : list token)
    : parsed (expr * list token) :=
  match fuel with
  | O => Outside
  | S n => pbind (parse_primary n ts) (λ r, parse_sum_rest n r.1 r.2)
  end
with parse_sum_rest (fuel : nat) (e : expr) (ts : list token)
    : parsed (expr * list token) :=
  match fuel with
  | O => Outside
  | S n =>
      match ts with
      | TPlus :: ts' =>
          pbind (parse_primary n ts')
                (λ r, parse_sum_rest n (EAdd e r.1) r.2)
      | _ => Parsed (e, ts)
      end
  end
with parse_primary (fuel : nat) (ts : list token)
    : parsed (expr * list token) :=
  match fuel with
  | O => Outside
  | S n =>
      match ts with
      | TName x :: ts' =>
          pbind (atom_of_name x) (λ a, parse_trailers n a ts')
      | TStr _ :: TStr _ :: _ => Outside
      | TStr s :: ts' => parse_trailers n (EStr s) ts'
      | TLParen :: ts' =>
          pbind (parse_sum n ts')
                (λ r, match r.2 with
                      | TRParen :: ts'' => parse_trailers n r.1 ts''
                      | _ => Outside
                      end)
      | _ => Outside
      end
  end
with parse_trailers (fuel : nat) (e : expr) (ts : list token)
    : parsed (expr * list token) :=
  match fuel with
  | O => Outside
  | S n =>
      match ts with
      | TDot :: TName x :: ts' =>
          if reserved x then Outside else parse_trailers n (EAttr e x) ts'
      | TDot :: _ => Outside
      | TLParen :: TRParen :: ts' => parse_trailers n (ECall0 e) ts'
      | TLParen :: ts' =>
          pbind (parse_sum n ts')
                (λ r, match r.2 with
                      | TRParen :: ts'' =>
                          parse_trailers n (ECall1 e r.1) ts''
                      | _ => Outside
                      end)
      | TName x :: _ => if reserved x then Outside else Invalid
      | TStr _ :: _ => Outside
      | _ => Parsed (e, ts)
      end
  end.

(** The longest source of the fragment, in tokens.  CPython's parser
    refuses more than 200 nested parentheses and its compiler gives up on
    operator chains of some thousand terms; a source of a hundred tokens is
    clear of both limits. *)
Definition max_tokens : nat := 100.

Definition parse (src : pystr) : parsed expr :=
  match lex Start src with
  | None => Outside
  | Some ts =>
      if (max_tokens <? length ts)%nat then Outside
      else
        pbind (parse_sum (4 * S (length ts)) ts)
              (λ r, match r.2 with [] => Parsed r.1 | _ => Outside end)
  end.

Definition builtin_of (x : pystr) : option builtin :=
  if bool_decide (x = py "len") then Some BLen else None.

Definition method_of (x : pystr) : option strmethod :=
  if bool_decide (x = py "strip") then Some MStrip else None.

Section Eval.
(** [eval(src, globals, locals)], each dictionary given by its string
    keys. *)
Variable globals : gmap pystr pyval.
Variable locals : gmap pystr pyval.

(** A name is looked up in [locals], then in [globals], then in the
    builtins: when [globals] has no key [__builtins__], [eval] inserts the
    [builtins] module under it before it evaluates. *)
Definition lookup_name (x : pystr) : option outcome :=
  match locals !! x with
  | Some v => Some (Returns v)
  | None =>
      match globals !! x with
      | Some v => Some (Returns v)
      | None =>
          match globals !! py "__builtins__" with
          | Some _ => None
          | None => (λ f, Returns (VBuiltin f)) <$> builtin_of x
          end
      end
  end.

Definition as_int (v : pyval) : option Z :=
  match v with
  | VInt z => Some z
  | VBool b => Some (if b then 1 else 0)%Z
  | _ => None
  end.

Definition add (a b : pyval) : outcome :=
  match a, b with
  | VStr x, VStr y => Returns (VStr (x ++ y))
  | VBytes x, VBytes y => Returns (VBytes (x ++ y))
  | _, _ =>
      match as_int a, as_int b with
      | Some x, Some y => Returns (VInt (x + y))
      | _, _ => Raises TypeError
      end
  end.

Definition getattr (a : pyval) (x : pystr) : option outcome :=
  match a with
  | VStr s => (λ m, Returns (VMethod s m)) <$> method_of x
  | _ => None
  end.

Definition call (f : pyval) (arg : option pyval) : option outcome :=
  match f, arg with
  | VBuiltin BLen, Some (VStr s) => Some (Returns (VInt (Z.of_nat (length s))))
  | VMethod s MStrip, None => Some (Returns (VStr (Str.strip s)))
  | _, _ => None
  end.

(** Operands are evaluated from left to right; the first exception ends the
    evaluation. *)
Fixpoint eval_expr (e : expr) : option outcome :=
  match e with
  | EName x => lookup_name x
  | EConst v => Some (Returns v)
  | EStr s => Some (Returns (VStr s))
  | EAdd a b =>
      match eval_expr a with
      | Some (Returns va) =>
          match eval_expr b with
          | Some (Returns vb) => Some (add va vb)
          | r => r
          end
      | r => r
      end
  | EAttr a x =>
      match eval_expr a with
      | Some (Returns va) => getattr va x
      | r => r
      end
  | ECall0 f =>
      match eval_expr f with
      | Some (Returns vf) => call vf None
      | r => r
      end
  | ECall1 f a =>
      match eval_expr f with
      | Some (Returns vf) =>
          match eval_expr a with
          | Some (Returns va) => call vf (Some va)
          | r => r
          end
      | r => r
      end
  end.

Definition eval (src : pystr) : option outcome :=
  match parse src with
  | Parsed e => eval_expr e
  | Invalid => Some (Raises SyntaxError)
  | Outside => None
  end.
End Eval.

(** The expressions the specification describes instead: variables bound
    in the user data, string literals and their concatenation, with no name
    of [builtins], no attribute access and no call. *)
Fixpoint restricted (locals : gmap pystr pyval) (e : expr) : bool :=
  match e with
  | EName x => bool_decide (is_Some (locals !! x))
  | EStr _ => true
  | EAdd a b => restricted locals a && restricted locals b
  | EConst _ | EAttr _ _ | ECall0 _ | ECall1 _ _ => false
  end.

End PyExpr.

(** ** Data reconstructor: [reconstruct_user_data] *)

Module Reconstructor.

(** What a call leaves to its caller: a value, or an exception that no
    handler of the function catches. *)
Inductive result (A : Type) :=
| Ok (a : A)
| Escaped.
Arguments Ok {A} a.
Arguments Escaped {A}.

(** The source text handed to [eval]: a [str] or a [bytes] object. *)
Inductive source :=
| SrcStr (s : pystr)
| SrcBytes (b : list N).

(** The two dictionaries of the function, [raw_user_data] and
    [final_data], as they stand at one point of the loop, each given by its
    string keys.  The expression that [eval] runs can reach both:
    [raw_user_data] is its locals, which [locals().clear()] empties and an
    assignment expression rebinds, and [final_data] is a local variable of
    the calling frame, within reach through [sys._getframe]. *)
Record frame := Frame {
  raw_user_data : gmap pystr pyval;
  final_data : gmap pystr pyval
}.

(** An evaluator is Python's as far as this file is concerned when it
    agrees with the fragment wherever the fragment gives a result: it
    gives that result, with empty globals and [raw_user_data] as locals,
    and leaves the two dictionaries as they are. *)
Definition extends (ev : source → frame → option (outcome * frame)) : Prop :=
  ∀ src fr o,
    PyExpr.eval ∅ (raw_user_data fr) src = Some o →
    ev (SrcStr src) fr = Some (o, fr).

(** The fragment, completed by an arbitrary answer outside of it. *)
Definition eval_or (dflt : outcome) (src : source) (fr : frame)
    : option (outcome * frame) :=
  Some (match src with
        | SrcStr s => default dflt (PyExpr.eval ∅ (raw_user_data fr) s)
        | SrcBytes _ => dflt
        end, fr).



Section Reconstruct.
(** [py_eval src fr] is Python's [eval(src, {}, raw_user_data)] called by
    the function when its two dictionaries are as [fr] has them: what the
    call returns or raises, and the two dictionaries after it.  [None]
    stands for an evaluation this file does not describe: one that does not
    end, whose outcome depends on more than the source and the two
    dictionaries, that returns or stores an object that [pyval] does not
    have, leaves a key that is no string in a dictionary, changes the
    mapping that is being iterated, or rebinds a local variable of the
    function. *)
Variable py_eval : source → frame → option (outcome * frame).

(** The objects [eval] takes as source text. *)
Definition source_of (user_key_expr : pyval) : option source :=
  match user_key_expr with
  | VStr s => Some (SrcStr s)
  | VBytes b => Some (SrcBytes b)
  | _ => None
  end.

(** [eval(user_key_expr, {}, raw_user_data)]: on an argument that is no
    source text, TypeError is raised before anything is evaluated. *)
Definition eval_entry (user_key_expr : pyval) (fr : frame)
    : option (outcome * frame) :=
  match source_of user_key_expr with
  | Some src => py_eval src fr
  | None => Some (Raises TypeError, fr)
  end.

(** The value of the [except Exception] branch. *)
Definition fallback (user_key_expr : pyval) (fr : frame) : pyval :=
  match user_key_expr with
  | VStr key => default VNone (raw_user_data fr !! key)
  | _ => VNone
  end.

(** The [try] statement: [value] after it, unless the exception is none
    of [Exception]; the handler reads [raw_user_data] as the evaluation
    left it. *)
Definition resolve (user_key_expr : pyval) (fr : frame)
    : option (result pyval * frame) :=
  match eval_entry user_key_expr fr with
  | Some (Returns value, fr') => Some (Ok value, fr')
  | Some (Raises e, fr') =>
      Some (if is_Exception e then Ok (fallback user_key_expr fr')
            else Escaped, fr')
  | None => None
  end.

(** [if value: final_data[form_field] = value] *)
Definition store (form_field : pystr) (value : pyval) (fr : frame) : frame :=
  if truthy value then
    Frame (raw_user_data fr) (<[ form_field := value ]> (final_data fr))
  else fr.

(** The body of the loop over [field_mapping.items()]. *)
Definition step (fr : frame) (form_field : pystr) (user_key_expr : pyval)
    : option (result frame) :=
  match user_key_expr with
  | VNone => Some (Ok fr)
  | _ =>
      match resolve user_key_expr fr with
      | Some (Ok value, fr') => Some (Ok (store form_field value fr'))
      | Some (Escaped, _) => Some Escaped
      | None => None
      end
  end.

(** The loop, over the items of the mapping in their order. *)
Fixpoint loop (items : list (pystr * pyval)) (fr : frame)
    : option (result frame) :=
  match items with
  | [] => Some (Ok fr)
  | (form_field, user_key_expr) :: items' =>
      match step fr form_field user_key_expr with
      | Some (Ok fr') => loop items' fr'
      | r => r
      end
  end.

(** The function.  [field_mapping] is the dictionary as the list of its
    items, whose keys are strings, and [user_data] the dictionary it gets
    as [raw_user_data], the table of the user-data parser.  The result is
    [None] when an evaluation is one this file does not describe. *)
Definition reconstruct_user_data (user_data : gmap pystr pystr)
    (field_mapping : list (pystr * pyval))
    : option (result (gmap pystr pyval)) :=
  match loop field_mapping (Frame (VStr <$> user_data) ∅) with
  | Some (Ok fr) => Some (Ok (final_data fr))
  | Some Escaped => Some Escaped
  | None => None
  end.

(** What an entry evaluated in [fr] stores, if it stores a value. *)
Definition stored_value (user_key_expr : pyval) (fr : frame)
    : option pyval :=
  match user_key_expr with
  | VNone => None
  | _ =>
      match resolve user_key_expr fr with
      | Some (Ok value, _) => if truthy value then Some value else None
      | _ => None
      end
  end.

(** An entry whose evaluation, in whatever state the two dictionaries
    are, leaves them as they are and lets no exception escape the
    function. *)
Definition quiet (user_key_expr : pyval) : Prop :=
  ∀ fr, ∃ o, eval_entry user_key_expr fr = Some (o, fr)
             ∧ ∀ e, o = Raises e → is_Exception e = true.

End Reconstruct.

End Reconstructor.

(** ** Form filler, flat-form variant: [auto_fill_flat_pdf_smart] *)

Module Filler.

Import Reconstructor.

Section Fill.
(** Coordinates are floating-point numbers: a type with the equality of
    dictionary keys, [round(x, 1)] and the addition of an integer constant.
    [lower] is [str.lower], which the Unicode database defines. *)
Context {float : Type} `{EqDecision float}.
Variable round1 : float → float.
Variable fadd : float → Z → float.
Variable lower : pystr → pystr.

(** A word of [page.extract_words()]: the fields the function reads. *)
Record word := { text : pystr; x1 : float; top : float }.

(** [lines.setdefault(line_key, []).append(w)]: the dictionary keeps its
    keys in the order of their first insertion. *)
Fixpoint setdefault_append (lines : list (float * list word))
    (line_key : float) (w : word) : list (float * list word) :=
  match lines with
  | [] => [(line_key, [w])]
  | (k, ws) :: rest =>
      if decide (k = line_key) then (k, ws ++ [w]) :: rest
      else (k, ws) :: setdefault_append rest line_key w
  end.

Definition group_lines (words : list word) : list (float * list word) :=
  foldl (λ lines w, setdefault_append lines (round1 (top w)) w) [] words.

(** [label_key.lower() in line_text.lower()] *)
Definition line_matches (label_key : pystr) (line_words : list word) : bool :=
  let line_text := Str.join [32] (text <$> line_words) in
  Str.contains (lower line_text) (lower label_key).

(** The inner [for ... else]: the first word that is the first token of the
    label, both in lower case, otherwise [line_words[0]]. *)
Definition anchor (first_label_word : pystr) (line_words : list word)
    : option word :=
  match find (λ w, bool_decide (lower (text w) = first_label_word)) line_words
  with
  | Some w => Some w
  | None => head line_words
  end.

(** The anchor as the specification words it, for comparison: the first
    word equal to the token as it stands, otherwise the first word. *)
Definition exact_anchor (first_label_word : pystr) (line_words : list word)
    : option word :=
  match find (λ w, bool_decide (text w = first_label_word)) line_words with
  | Some w => Some w
  | None => head line_words
  end.

(** The loop over [lines.items()] for one label, up to its [break]:
    [Ok None] when no line matches, [Escaped] for the [IndexError] of
    [label_key.split()[0]] or [line_words[0]]. *)
Fixpoint locate (label_key : pystr) (lines : list (float * list word))
    : result (option (float * float)) :=
  match lines with
  | [] => Ok None
  | (_, line_words) :: rest =>
      if line_matches label_key line_words then
        match Str.split label_key with
        | [] => Escaped
        | first :: _ =>
            match anchor (lower first) line_words with
            | Some w => Ok (Some (fadd (x1 w) 50, top w))
            | None => Escaped
            end
        end
      else locate label_key rest
  end.

(** The loop over the labels on page [i]. *)
Fixpoint page_coords (i : nat) (lines : list (float * list word))
    (labels : list pystr) (coords_map : gmap pystr (nat * float * float))
    : result (gmap pystr (nat * float * float)) :=
  match labels with
  | [] => Ok coords_map
  | label_key :: labels' =>
      match locate label_key lines with
      | Escaped => Escaped
      | Ok None => page_coords i lines labels' coords_map
      | Ok (Some (insert_x, label_top)) =>
          page_coords i lines labels'
            (<[ label_key := (i, insert_x, label_top) ]> coords_map)
      end
  end.

(** What the loop over the labels leaves in the coordinate map for the
    label [l]. *)
Definition page_entry (i : nat) (lines : list (float * list word))
    (labels : list pystr) (cm : gmap pystr (nat * float * float))
    (l : pystr) : option (nat * float * float) :=
  if decide (l ∈ labels) then
    match locate l lines with
    | Ok (Some (x, y)) => Some (i, x, y)
    | _ => cm !! l
    end
  else cm !! l.

(** The loop over [enumerate(pdf.pages)], each page given by its words,
    starting at page [i]. *)
Fixpoint pages_coords (i : nat) (pages : list (list word))
    (labels : list pystr) (coords_map : gmap pystr (nat * float * float))
    : result (gmap pystr (nat * float * float)) :=
  match pages with
  | [] => Ok coords_map
  | words :: pages' =>
      match page_coords i (group_lines words) labels coords_map with
      | Escaped => Escaped
      | Ok coords_map' => pages_coords (S i) pages' labels coords_map'
      end
  end.

(** What is drawn: the page, the rectangle, the origin of the text and the
    value. *)
Record stamp := {
  page_num : nat;
  rect : float * float * float * float;
  text_at : float * float;
  value : pyval
}.

(** The second loop, over [user_data.items()]. *)
Fixpoint stamps (user_data : list (pystr * pyval))
    (coords_map : gmap pystr (nat * float * float)) : list stamp :=
  match user_data with
  | [] => []
  | (key, v) :: user_data' =>
      match coords_map !! key with
      | Some (n, x, y) =>
          {| page_num := n; rect := (x, y, fadd x 150, fadd y 20);
             text_at := (fadd x 2, fadd y 2); value := v |}
          :: stamps user_data' coords_map
      | None => stamps user_data' coords_map
      end
  end.

(** The function: [user_data] is the dictionary as the list of its items,
    the result the stamps drawn on the document. *)
Definition auto_fill_flat_pdf_smart (pages : list (list word))
    (user_data : list (pystr * pyval)) : result (list stamp) :=
  match pages_coords 0 pages (fst <$> user_data) ∅ with
  | Escaped => Escaped
  | Ok coords_map => Ok (stamps user_data coords_map)
  end.
End Fill.

End Filler.

(** ** Text extractor: [extract_text_from_pdf] and its use in [main] *)

Module Text.

(** The pages are given by the results of [page.extract_text()]; a page
    with no text counts as the empty string. *)
Definition extract_text_from_pdf (pages : list (option pystr)) : pystr :=
  Str.join [10] ((λ page, default [] page) <$> pages).

(** The text of the uploaded document in [main]: the embedded text, and
    the text [ocr_text] that [extract_text_with_ocr] returns when the
    embedded text is blank. *)
Definition user_text (pages : list (option pystr)) (ocr_text : pystr)
    : pystr :=
  let user_text := extract_text_from_pdf pages in
  match Str.strip user_text with
  | [] => ocr_text
  | _ => user_text
  end.

End Text.

(** ** User data for interactive forms: [extract_info_from_text] *)

Module Info.

Section Info.
(** [fold_eq a b]: the code points [a] and [b], not both ASCII, are equal
    under [re.IGNORECASE]; the Unicode database decides. *)
Variable fold_eq : N → N → bool.

(** A literal code point of the pattern against a code point of the
    subject, under [re.IGNORECASE]. *)
Definition ci (a b : N) : bool :=
  if (a <? 128) && (b <? 128)
  then (if (65 <=? a) && (a <=? 90) then a + 32 else a)
       =? (if (65 <=? b) && (b <=? 90) then b + 32 else b)
  else fold_eq a b.

(** The pattern: the field name, code point by code point as
    [re.escape] leaves it, then blanks, a colon and blanks, and as group 1
    the rest of the line. *)
Definition field_re (field : pystr) : Re.regex :=
  Re.cat (((λ c, Re.Chr (ci c)) <$> field)
          ++ [ Re.Rep Str.isspace 0 true; Re.Chr (Re.chr 58);
               Re.Rep Str.isspace 0 true;
               Re.Group 1 (Re.Rep Re.dot 0 true) ]).

(** [match.group(1).strip()] when [pattern.search(line)] matches. *)
Definition field_value (field line : pystr) : option pystr :=
  match Re.search (field_re field) line with
  | Some (_, _, cs) => Some (Str.strip (default [] (Re.group 1 cs)))
  | None => None
  end.

(** The body of the inner loop. *)
Definition add_field (line : pystr) (data : gmap pystr pystr)
    (field : pystr) : gmap pystr pystr :=
  match field_value field line with
  | Some v => <[ field := v ]> data
  | None => data
  end.

Definition extract_info_from_text (text : pystr) (field_names : list pystr)
    : gmap pystr pystr :=
  foldl (λ data line, foldl (add_field line) data field_names) ∅
        (Str.splitlines text).
End Info.

End Info.

(** ** The search history: [add_to_history] *)

Module History.

Record search := {
  timestamp : pystr;
  country : pystr;
  query : pystr;
  pdf_url : option pystr
}.

(** [now] is the result of [time.strftime]; the history is
    [st.session_state.search_history] before and after the call. *)
Definition add_to_history (now country query : pystr)
    (pdf_url : option pystr) (search_history : list search) : list search :=
  let h := search_history
           ++ [ {| timestamp := now; country := country; query := query;
                   pdf_url := pdf_url |} ] in
  if (10 <? length h)%nat then drop (length h - 10) h else h.

End History.

(** ** The choice of a PDF link: [find_pdf_in_html_page] *)

Module Links.

(** [a.endswith(b)] *)
Definition endswith (a b : pystr) : bool :=
  Str.startswith (rev a) (rev b).

Definition keywords : list pystr :=
  py <$> [ "tax"; "form"; "return"; "income" ]%string.

Section Links.
(** [lower] is [str.lower] and [urljoin] is [urllib.parse.urljoin], which
    raises ValueError on some addresses, a malformed bracketed host for
    one: [None] stands for that. *)
Variable lower : pystr → pystr.
Variable urljoin : pystr → pystr → option pystr.

(** [href if href.startswith("http") else urljoin(url, href)] *)
Definition full_url (url href : pystr) : option pystr :=
  if Str.startswith href (py "http") then Some href else urljoin url href.

(** The body of the first loop, for one anchor that has an [href], given
    as the [href] and the text of the anchor: [None] when [urljoin] raises,
    otherwise the link it adds to [pdf_links], if any. *)
Definition pdf_link (url : pystr) (anchor : pystr * pystr)
    : option (option (pystr * pystr)) :=
  let href := anchor.1 in
  if endswith (lower href) (py ".pdf") then
    match full_url url href with
    | Some u => Some (Some (u, Str.strip anchor.2))
    | None => None
    end
  else Some None.

(** The first loop: [None] when it is left by an exception. *)
Fixpoint pdf_links (url : pystr) (anchors : list (pystr * pystr))
    : option (list (pystr * pystr)) :=
  match anchors with
  | [] => Some []
  | anchor :: anchors' =>
      match pdf_link url anchor with
      | None => None
      | Some l =>
          match pdf_links url anchors' with
          | None => None
          | Some ls => Some (option_list l ++ ls)
          end
      end
  end.

(** The test of the second loop. *)
Definition relevant (link : pystr * pystr) : bool :=
  let combined_text := lower (link.1 ++ [32] ++ link.2) in
  existsb (λ keyword, Str.contains combined_text keyword) keywords.

(** The second loop and what follows it. *)
Definition choose (links : list (pystr * pystr)) : option pystr :=
  match find relevant links with
  | Some link => Some link.1
  | None =>
      match links with
      | link :: _ => Some link.1
      | [] => None
      end
  end.

(** The function on a page whose anchors are [anchors]; the handler of
    [except Exception] returns [None]. *)
Definition find_pdf_in_html_page (url : pystr)
    (anchors : list (pystr * pystr)) : option pystr :=
  match pdf_links url anchors with
  | Some links => choose links
  | None => None
  end.
End Links.

End Links.

(** ** The entry of a line of the user-data document *)

Module Lines.

(** The entry that [Parser.add_line] stores for a line, if it stores
    one. *)
Definition line_entry (line : pystr) : option (pystr * pystr) :=
  match Parser.clean_line line with
  | [] => None
  | l => snd <$> Parser.parse_line l
  end.

End Lines.

(** ** Shapes of strings used in the statements *)

(** A string that neither starts nor ends with a blank. *)
Definition trimmed (s : pystr) : Prop :=
  (∀ c, head s = Some c → Str.isspace c = false)
  ∧ (∀ c, last s = Some c → Str.isspace c = false).

(** The tokens of [split]: not empty, and without a blank. *)
Definition is_token (w : pystr) : Prop :=
  w ≠ [] ∧ Forall (λ c, Str.isspace c = false) w.

(** * Properties *)

(** ** The matcher *)

Section MatcherFacts.
Context {R : Type}.

(** A match of a repetition hands the rest of the subject to what follows,
    after at least [min] code points of the class. *)
Lemma rep_inv (p : N → bool) (greedy : bool) (min : nat) (s : pystr)
    (pos : nat) (cs : Re.captures) (k : @Re.cont R) (res : R) :
  Re.rep p greedy min s pos cs k = Some res →
  ∃ n, (min ≤ n ≤ length s)%nat
       ∧ Forall (λ c, p c = true) (take n s)
       ∧ k (drop n s) (pos + n)%nat cs = Some res.
Proof.
  revert min pos. induction s as [|c s IH]; intros min pos.
  - destruct min as [|min]; simpl; [|done].
    intros Hk. exists 0%nat. simpl. rewrite Nat.add_0_r. by repeat split.
  - assert (Hmore : (if p c then Re.rep p greedy (Nat.pred min) s (S pos) cs k
                     else None) = Some res →
              ∃ n, (min ≤ n ≤ length (c :: s))%nat
                   ∧ Forall (λ c, p c = true) (take n (c :: s))
                   ∧ k (drop n (c :: s)) (pos + n)%nat cs = Some res).
    { destruct (p c) eqn:Hc; [|done]. intros Hrep.
      destruct (IH _ _ Hrep) as (n & Hn & Hall & Hk).
      exists (S n). simpl. split; [lia|]. split; [by constructor|].
      by replace (pos + S n)%nat with (S pos + n)%nat by lia. }
    assert (Hstop : k (c :: s) pos cs = Some res →
              ∃ n, (0 ≤ n ≤ length (c :: s))%nat
                   ∧ Forall (λ c, p c = true) (take n (c :: s))
                   ∧ k (drop n (c :: s)) (pos + n)%nat cs = Some res).
    { intros Hk. exists 0%nat. simpl. rewrite Nat.add_0_r.
      split; [lia|]. by split. }
    destruct min as [|min]; simpl; [|exact Hmore].
    destruct greedy; unfold Re.orelse.
    + destruct (if p c then _ else _) as [r|] eqn:Hfirst.
      * intros [= ->]. by apply Hmore.
      * exact Hstop.
    + destruct (k (c :: s) pos cs) as [r|] eqn:Hfirst.
      * intros [= ->]. by apply Hstop.
      * exact Hmore.
Qed.

End MatcherFacts.

(** The ordinal before a label captures nothing. *)
Lemma ordinal_inv {R : Type} (nd : N → bool) (s : pystr) (pos : nat)
    (cs : Re.captures) (k : @Re.cont R) (res : R) :
  Re.rmatch (Re.cat [ Re.Rep (Labels.digit nd) 1 true; Re.Chr (Re.chr 46);
                      Re.Rep Str.isspace 0 true ]) s pos cs k = Some res →
  ∃ s1 p1, k s1 p1 cs = Some res.
Proof.
  simpl. intros Hm.
  apply rep_inv in Hm as (n & _ & _ & Hm).
  destruct (drop n s) as [|c s1]; [done|].
  destruct (Re.chr 46 c); [|done].
  apply rep_inv in Hm as (n' & _ & _ & Hm). eauto.
Qed.

(** Group 1 of a match of the label pattern: one code point or more, all
    of the label class. *)
Lemma label_match_group (nd : N → bool) (s : pystr) (pos e : nat)
    (cs : Re.captures) :
  Re.match_at (Labels.label_re nd) s pos = Some (e, cs) →
  ∃ t, Re.group 1 cs = Some t ∧ t ≠ []
       ∧ Forall (λ c, Labels.label_class c = true) t.
Proof.
  unfold Re.match_at, Labels.label_re.
  assert (Hgroup : ∀ s1 p1,
    Re.rmatch (Re.cat [ Re.Group 1 (Re.Rep Labels.label_class 1 true);
                        Re.Chr (Re.chr 58) ]) s1 p1 []
      (λ _ p c, Some (p, c)) = Some (e, cs) →
    ∃ t, Re.group 1 cs = Some t ∧ t ≠ []
         ∧ Forall (λ c, Labels.label_class c = true) t).
  { intros s1 p1. simpl. intros Hm.
    apply rep_inv in Hm as (n & Hn & Hall & Hm).
    destruct (drop n s1) as [|c s2]; [done|].
    destruct (Re.chr 58 c); [|done]. injection Hm as <- <-.
    exists (take (p1 + n - p1) s1). simpl. split; [done|].
    replace (p1 + n - p1)%nat with n by lia. split; [|done].
    destruct s1; [simpl in Hn; lia|]. destruct n; [lia|done]. }
  intros Hm.
  change (Re.orelse
            (Re.rmatch (Re.cat [ Re.Rep (Labels.digit nd) 1 true;
                                 Re.Chr (Re.chr 46);
                                 Re.Rep Str.isspace 0 true ]) s pos []
               (λ s1 p1 c1,
                  Re.rmatch (Re.cat [ Re.Group 1
                                        (Re.Rep Labels.label_class 1 true);
                                      Re.Chr (Re.chr 58) ]) s1 p1 c1
                    (λ _ p c, Some (p, c))))
            (λ _, Re.rmatch (Re.cat [ Re.Group 1
                                        (Re.Rep Labels.label_class 1 true);
                                      Re.Chr (Re.chr 58) ]) s pos []
                    (λ _ p c, Some (p, c)))
          = Some (e, cs)) in Hm.
  unfold Re.orelse in Hm.
  destruct (Re.rmatch (Re.cat [ Re.Rep _ _ _; _; _ ]) s pos [] _)
    as [r|] eqn:Hord.
  - injection Hm as ->. apply ordinal_inv in Hord as (s1 & p1 & Hord).
    by apply (Hgroup s1 p1).
  - by apply (Hgroup s pos).
Qed.

(** What [findall] returns is group 1 of a match somewhere in the line. *)
Lemma findall_from_match (r : Re.regex) (s : pystr) (pos skip : nat)
    (m : pystr) :
  m ∈ Re.findall_from r s pos skip →
  ∃ s' pos' e cs, Re.match_at r s' pos' = Some (e, cs)
                  ∧ m = default [] (Re.group 1 cs).
Proof.
  revert pos skip. induction s as [|c s IH]; intros pos skip; simpl.
  - destruct skip; [|by intros ?%elem_of_nil].
    destruct (Re.match_at r [] pos) as [[e cs]|] eqn:Hm;
      [|by intros ?%elem_of_nil].
    intros Hin. apply list_elem_of_singleton in Hin. eauto 6.
  - destruct skip; [|by apply IH].
    destruct (Re.match_at r (c :: s) pos) as [[e cs]|] eqn:Hm; [|by apply IH].
    intros Hin. apply elem_of_cons in Hin as [->|Hin]; [eauto 6|].
    by apply IH in Hin.
Qed.

Lemma lstrip_by_Forall (P : N → Prop) (p : N → bool) (s : pystr) :
  Forall P s → Forall P (Str.lstrip_by p s).
Proof.
  induction 1 as [|c s Hc Hs IH]; simpl; [constructor|].
  destruct (p c); [done|by constructor].
Qed.

Lemma strip_Forall (P : N → Prop) (s : pystr) :
  Forall P s → Forall P (Str.strip s).
Proof.
  intros Hs. unfold Str.strip, Str.strip_by, Str.rstrip_by.
  apply Forall_rev, lstrip_by_Forall, Forall_rev.
  by apply lstrip_by_Forall.
Qed.

(** ** The slot enumerator *)

Section LabelFacts.
Variable nd : N → bool.

(** Longer than one code point, and of the label class throughout. *)
Let good (l : pystr) : Prop :=
  (1 < length l)%nat ∧ Forall (λ c, Labels.label_class c = true) l.

Lemma foldl_invariant {A : Type} (I : gset pystr → Prop)
    (f : gset pystr → A → gset pystr) (xs : list A) :
  (∀ acc a, a ∈ xs → I acc → I (f acc a)) →
  ∀ acc, I acc → I (foldl f acc xs).
Proof.
  induction xs as [|a xs IH]; simpl; intros Hf acc Hacc; [done|].
  apply IH.
  - intros acc' a' Hin. apply Hf. by apply list_elem_of_further.
  - apply Hf; [apply list_elem_of_here|done].
Qed.

Lemma add_match_good (labels : gset pystr) (m : pystr) :
  Forall (λ c, Labels.label_class c = true) m →
  (∀ x, x ∈ labels → good x) →
  ∀ x, x ∈ Labels.add_match labels m → good x.
Proof.
  intros Hm Hacc x. unfold Labels.add_match.
  destruct (1 <? length (Str.strip m))%nat eqn:Hlen; [|by auto].
  apply Nat.ltb_lt in Hlen.
  rewrite elem_of_union, elem_of_singleton. intros [->|Hx]; [|by auto].
  split; [done|]. by apply strip_Forall.
Qed.

Lemma label_set_good (pages : list (option pystr)) (l : pystr) :
  l ∈ Labels.label_set nd pages → good l.
Proof.
  revert l. unfold Labels.label_set.
  apply (foldl_invariant (λ acc, ∀ x, x ∈ acc → good x)); [|set_solver].
  intros acc page _ Hacc. unfold Labels.add_page.
  apply (foldl_invariant (λ acc, ∀ x, x ∈ acc → good x)); [|done].
  clear. intros acc line _ Hacc. unfold Labels.add_line.
  apply (foldl_invariant (λ acc, ∀ x, x ∈ acc → good x)); [|done].
  clear. intros acc m Hm Hacc. apply add_match_good; [|done].
  apply findall_from_match in Hm as (s' & pos' & e & cs & Hmatch & ->).
  apply label_match_group in Hmatch as (t & -> & _ & Ht). done.
Qed.
End LabelFacts.

Lemma labels_with_apostrophe (nd : N → bool) :
  Labels.extract_labels_from_text nd [Some (py "3. Father's Name:")]
    = [py "s Name"].
Proof. vm_compute. reflexivity. Qed.

(** C3, as the code has it.  On the line "3. Father's Name:" the
    enumerator yields the one label "s Name": the apostrophe is no member of
    the label class, so the match starts after it.  With no apostrophe, as in
    "3. Father Name:", the ordinal and the colon are stripped and the label is
    "Father Name".  Every label the enumerator returns is longer than one
    code point and made of letters, blanks, slashes and parentheses only. *)
Theorem labels_of_numbered_line (nd : N → bool) :
  Labels.extract_labels_from_text nd [Some (py "3. Father's Name:")]
    = [py "s Name"]
  ∧ Labels.extract_labels_from_text nd [Some (py "3. Father Name:")]
    = [py "Father Name"]
  ∧ ∀ pages l,
      l ∈ Labels.extract_labels_from_text nd pages →
      (1 < length l)%nat ∧ Forall (λ c, Labels.label_class c = true) l.
Proof.
  split; [|split].
  - apply labels_with_apostrophe.
  - vm_compute. reflexivity.
  - intros pages l Hl. apply (label_set_good nd pages).
    unfold Labels.extract_labels_from_text in Hl.
    by apply elem_of_elements in Hl.
Qed.

(** C3, as the specification states it, fails: whatever the table of the
    non-ASCII digits, the label "Father's Name" is not among the labels of the
    line "3. Father's Name:". *)
Lemma fathers_name_not_a_label :
  ¬ ∃ nd, py "Father's Name"
          ∈ Labels.extract_labels_from_text nd [Some (py "3. Father's Name:")].
Proof.
  intros [nd H].
  rewrite labels_with_apostrophe in H.
  apply list_elem_of_singleton in H. vm_compute in H. discriminate H.
Qed.

(** ** The user-data parser *)

Lemma candidates_succ (m : nat) :
  rev (seq 1 (S m)) = S m :: rev (seq 1 m).
Proof. rewrite seq_S, rev_app_distr. reflexivity. Qed.

(** The loop over [reversed(range(1, m + 1))] returns the split at the
    largest acceptable index. *)
Lemma first_split_longest (words : list pystr) (m : nat) (e : pystr * pystr) :
  Parser.first_split words (rev (seq 1 m)) = Some e →
  ∃ i, (1 ≤ i ≤ m)%nat ∧ e = Parser.split_at words i
       ∧ Parser.acceptable e = true
       ∧ ∀ j, (i < j ≤ m)%nat →
              Parser.acceptable (Parser.split_at words j) = false.
Proof.
  induction m as [|m IH]; [discriminate|].
  rewrite candidates_succ. simpl.
  destruct (Parser.acceptable (Parser.split_at words (S m))) eqn:Hacc.
  - intros [= <-]. exists (S m). repeat split; try lia; auto.
  - intros He. destruct (IH He) as (i & Hi & -> & Hok & Hmax).
    exists i. repeat split; try lia; auto.
    intros j Hj. destruct (decide (j = S m)) as [->|]; [done|].
    apply Hmax. lia.
Qed.

(** C2, as the code has it.  The line "Full Name John Smith" matches
    neither pattern, and the whitespace strategy gives it the label
    "Full Name John" and the value "Smith": the candidate label lengths are
    tried from the longest, at most four tokens and fewer than all of them,
    and the first split whose label and value are both longer than one code
    point is taken. *)
Theorem whitespace_split_longest :
  Parser.parse_line (py "Full Name John Smith")
    = Some (Parser.Whitespace, (py "Full Name John", py "Smith"))
  ∧ ∀ words e,
      Parser.whitespace_split words = Some e →
      ∃ i, (1 ≤ i ≤ 4)%nat ∧ (i < length words)%nat
           ∧ e = Parser.split_at words i
           ∧ Parser.acceptable e = true
           ∧ ∀ j, (i < j ≤ 4)%nat → (j < length words)%nat →
                  Parser.acceptable (Parser.split_at words j) = false.
Proof.
  split; [vm_compute; reflexivity|].
  intros words e He. unfold Parser.whitespace_split, Parser.candidates in He.
  destruct (first_split_longest _ _ _ He) as (i & Hi & -> & Hok & Hmax).
  exists i. repeat split; try lia; auto.
  intros j Hj Hlen. apply Hmax. lia.
Qed.

(** C2, as the specification states it, fails: for the tokens "Full",
    "Name", "John", "Smith" the label chosen is not "Full Name". *)
Lemma full_name_not_chosen :
  fst <$> Parser.whitespace_split [py "Full"; py "Name"; py "John"; py "Smith"]
    ≠ Some (py "Full Name").
Proof. vm_compute. discriminate. Qed.

(** A line changes the table at one key at most. *)
Lemma add_line_one_entry (data : gmap pystr pystr) (raw : pystr) :
  Parser.add_line data raw = data
  ∨ ∃ label value, Parser.add_line data raw = <[ label := value ]> data.
Proof.
  unfold Parser.add_line. destruct (Parser.clean_line raw) as [|c l]; [by left|].
  destruct (Parser.parse_line (c :: l)) as [[strategy [label value]]|];
    [right; eauto|by left].
Qed.

(** The strategies are tried in their order: the dotted-leader split is
    used when the colon pattern does not match, the whitespace split when
    neither pattern does. *)
Lemma parse_line_order (line : pystr) :
  match Re.match_ Parser.colon_re line, Re.match_ Parser.dots_re line with
  | Some (_, cs), _ =>
      Parser.parse_line line = Some (Parser.Colon, Parser.groups_entry cs)
  | None, Some (_, cs) =>
      Parser.parse_line line
      = Some (Parser.DottedLeader, Parser.groups_entry cs)
  | None, None =>
      Parser.parse_line line
      = (λ e, (Parser.Whitespace, e))
          <$> Parser.whitespace_split (Str.split line)
  end.
Proof.
  unfold Parser.parse_line.
  destruct (Re.match_ Parser.colon_re line) as [[e1 cs1]|]; [done|].
  destruct (Re.match_ Parser.dots_re line) as [[e2 cs2]|]; [done|].
  by destruct (Parser.whitespace_split _).
Qed.

Lemma key_class_not_colon (c : N) :
  Parser.key_class c = true → Parser.colon_class c = false.
Proof.
  unfold Parser.colon_class. intros Hk.
  destruct (N.eqb_spec c 58) as [->|_]; [by vm_compute in Hk|].
  destruct (N.eqb_spec c 65306) as [->|_]; [by vm_compute in Hk|done].
Qed.

Section StripAffixes.
Variable p : N → bool.







End StripAffixes.




(** ** The parsing of the model response *)

Section BraceSearch.

(** What is left of the brace pattern once the opening brace and part of
    the text have been read: a closing brace, then the end of the match. *)
Let closing : @Re.cont (nat * Re.captures) :=
  λ s1 p1 c1,
    Re.rmatch (Re.Chr (Re.chr 125)) s1 p1 c1 (λ _ p cs, Some (p, cs)).

Lemma brace_match_at (c : N) (s : pystr) (pos : nat) :
  Re.match_at Mapper.brace_re (c :: s) pos
  = if c =? 123 then Re.rep Re.any true 0 s (S pos) [] closing else None.
Proof. reflexivity. Qed.

Lemma brace_match_at_nil (pos : nat) :
  Re.match_at Mapper.brace_re [] pos = None.
Proof. reflexivity. Qed.

(** With no closing brace ahead, the greedy scan fails. *)
Lemma scan_no_closing (s : pystr) (pos : nat) (cs : Re.captures) :
  125 ∉ s → Re.rep Re.any true 0 s pos cs closing = None.
Proof.
  revert pos. induction s as [|c s IH]; intros pos Hs; [reflexivity|].
  apply not_elem_of_cons in Hs as [Hc Hs]. simpl.
  rewrite (IH _ Hs). unfold closing. simpl. unfold Re.chr.
  destruct (N.eqb_spec c 125) as [->|_]; [done|reflexivity].
Qed.

(** The greedy scan stops at the last closing brace. *)
Lemma scan_last_closing (mid post : pystr) (pos : nat) (cs : Re.captures) :
  125 ∉ post →
  Re.rep Re.any true 0 (mid ++ 125 :: post) pos cs closing
  = Some (S (pos + length mid), cs).
Proof.
  intros Hpost. revert pos. induction mid as [|c mid IH]; intros pos.
  - simpl. rewrite (scan_no_closing _ _ _ Hpost). simpl.
    by rewrite Nat.add_0_r.
  - simpl. rewrite IH. simpl. f_equal. f_equal. lia.
Qed.

Lemma search_braces (pre mid post : pystr) (pos : nat) :
  123 ∉ pre → 125 ∉ post →
  Re.search_from Mapper.brace_re (pre ++ 123 :: mid ++ 125 :: post) pos
  = Some ((pos + length pre)%nat, (pos + length pre + length mid + 2)%nat, []).
Proof.
  intros Hpre Hpost. revert pos.
  induction pre as [|c pre IH]; intros pos.
  - simpl app. unfold Re.search_from; fold Re.search_from.
    rewrite brace_match_at. simpl (123 =? 123).
    rewrite (scan_last_closing _ _ _ _ Hpost).
    f_equal. rewrite !pair_equal_spec. repeat split; simpl; lia.
  - apply not_elem_of_cons in Hpre as [Hc Hpre].
    simpl app. unfold Re.search_from; fold Re.search_from.
    rewrite brace_match_at.
    destruct (N.eqb_spec c 123) as [->|_]; [done|].
    rewrite (IH Hpre).
    f_equal. rewrite !pair_equal_spec. repeat split; simpl; lia.
Qed.

Lemma search_no_braces (s : pystr) (pos : nat) :
  (∀ pre rest, s = pre ++ 123 :: rest → 125 ∉ rest) →
  Re.search_from Mapper.brace_re s pos = None.
Proof.
  revert pos. induction s as [|c s IH]; intros pos Hs; [reflexivity|].
  unfold Re.search_from; fold Re.search_from.
  rewrite brace_match_at.
  assert (Hrest : Re.search_from Mapper.brace_re s (S pos) = None).
  { apply IH. intros pre rest ->. apply (Hs (c :: pre) rest). reflexivity. }
  destruct (N.eqb_spec c 123) as [->|_]; [|exact Hrest].
  rewrite scan_no_closing; [exact Hrest|].
  apply (Hs [] s). reflexivity.
Qed.

End BraceSearch.

(** The text handed to the literal parser runs from the first opening
    brace to the last closing brace. *)
Lemma dict_str_span (pre mid post : pystr) :
  123 ∉ pre → 125 ∉ post →
  Mapper.dict_str (pre ++ [123] ++ mid ++ [125] ++ post)
  = Some ([123] ++ mid ++ [125]).
Proof.
  intros Hpre Hpost. unfold Mapper.dict_str, Re.search. simpl app.
  rewrite (search_braces pre mid post 0 Hpre Hpost). f_equal.
  replace (0 + length pre + length mid + 2 - (0 + length pre))%nat
    with (length (123 :: mid ++ [125]))
    by (simpl; rewrite length_app; simpl; lia).
  replace (pre ++ 123 :: mid ++ 125 :: post)
    with (pre ++ (123 :: mid ++ [125]) ++ post)
    by (simpl; by rewrite <- app_assoc).
  simpl (0 + _)%nat. rewrite drop_app_length. by rewrite take_app_length.
Qed.

Lemma dict_str_none (content : pystr) :
  (∀ pre rest, content = pre ++ 123 :: rest → 125 ∉ rest) →
  Mapper.dict_str content = None.
Proof.
  intros H. unfold Mapper.dict_str, Re.search.
  by rewrite (search_no_braces content 0 H).
Qed.

(** C4, as the code has it.  What is parsed is the text from the first
    opening brace of the stripped response to its last closing brace.  When
    the literal parser raises on it, when no closing brace follows the first
    opening brace, or when there is no opening brace at all, as in
    "not json", the result is the empty mapping, and nothing is raised. *)
Theorem response_parsed_between_braces {mapping : Type} (empty : mapping)
    (literal_eval : pystr → option mapping) :
  (∀ response pre mid post,
     Str.strip response = pre ++ [123] ++ mid ++ [125] ++ post →
     123 ∉ pre → 125 ∉ post →
     Mapper.get_field_mapping_from_llm empty literal_eval response
     = default empty (literal_eval ([123] ++ mid ++ [125])))
  ∧ (∀ response,
       (∀ pre rest, Str.strip response = pre ++ 123 :: rest → 125 ∉ rest) →
       Mapper.get_field_mapping_from_llm empty literal_eval response = empty)
  ∧ Mapper.get_field_mapping_from_llm empty literal_eval (py "not json") = empty.
Proof.
  split; [|split].
  - intros response pre mid post Hstrip Hpre Hpost.
    unfold Mapper.get_field_mapping_from_llm. rewrite Hstrip.
    rewrite (dict_str_span pre mid post Hpre Hpost).
    by destruct (literal_eval _).
  - intros response H. unfold Mapper.get_field_mapping_from_llm.
    by rewrite (dict_str_none _ H).
  - reflexivity.
Qed.

(** C4, as the specification states it, fails: the text parsed is not
    always the first balanced brace group.  With a literal parser that hands
    back its argument, the response "{'a': 'b'} or {'c': 'd'}" shows the
    difference. *)
Lemma not_first_balanced_group :
  ¬ ∀ (literal_eval : pystr → option pystr) (response : pystr),
      Mapper.get_field_mapping_from_llm [] literal_eval response
      = default [] (Mapper.first_balanced (Str.strip response) ≫= literal_eval).
Proof.
  intros H.
  specialize (H Some (py "{'a': 'b'} or {'c': 'd'}")).
  vm_compute in H. discriminate H.
Qed.

(** ** The expression fragment *)

Import PyExpr.

Lemma lex_name_tail (acc r : pystr) :
  forallb name_char r = true →
  lex (InName acc) r = Some [TName (rev acc ++ r)].
Proof.
  revert acc. induction r as [|c r IH]; intros acc Hr; simpl.
  - by rewrite app_nil_r.
  - simpl in Hr. apply andb_true_iff in Hr as [Hc Hr].
    rewrite Hc, (IH _ Hr). simpl. by rewrite <- app_assoc.
Qed.

Lemma name_start_not_blank (c : N) :
  name_start c = true → (c =? 32) || (c =? 9) = false.
Proof.
  unfold name_start, Re.alpha. intros H.
  destruct (N.eqb_spec c 32) as [->|_]; [done|].
  destruct (N.eqb_spec c 9) as [->|_]; [done|]. reflexivity.
Qed.

Lemma lex_identifier (x : pystr) :
  is_identifier x = true → lex Start x = Some [TName x].
Proof.
  unfold is_identifier. intros H. apply andb_true_iff in H as [H _].
  destruct x as [|c r]; [done|]. apply andb_true_iff in H as [Hc Hr].
  simpl. unfold start_char. rewrite (name_start_not_blank _ Hc), Hc.
  by rewrite (lex_name_tail [c] r Hr).
Qed.

Lemma atom_of_unreserved (x : pystr) :
  reserved x = false → atom_of_name x = Parsed (EName x).
Proof.
  intros Hx. unfold atom_of_name. rewrite Hx.
  repeat case_bool_decide; subst; try done; by vm_compute in Hx.
Qed.

(** The parse of a source whose tokens are known and within the limit. *)
Lemma parse_tokens (src : pystr) (ts : list token) :
  lex Start src = Some ts → (max_tokens <? length ts)%nat = false →
  parse src
  = pbind (parse_sum (4 * S (length ts)) ts)
          (λ r, match r.2 with [] => Parsed r.1 | _ => Outside end).
Proof. intros Hlex Hlen. unfold parse. by rewrite Hlex, Hlen. Qed.

Lemma parse_identifier (x : pystr) :
  is_identifier x = true → parse x = Parsed (EName x).
Proof.
  intros Hx. rewrite (parse_tokens x [TName x]);
    [|by apply lex_identifier|reflexivity].
  apply andb_true_iff in Hx as [_ Hres]. apply negb_true_iff in Hres.
  simpl. by rewrite (atom_of_unreserved x Hres).
Qed.

(** A label that is an identifier is a variable of the expression, bound
    to its value in the user data. *)
Lemma eval_identifier (globals locals : gmap pystr pyval) (x : pystr)
    (v : pyval) :
  is_identifier x = true → locals !! x = Some v →
  eval globals locals x = Some (Returns v).
Proof.
  intros Hx Hs. unfold eval. rewrite (parse_identifier x Hx). simpl.
  unfold lookup_name. by rewrite Hs.
Qed.

Lemma eval_concat (locals : gmap pystr pyval) (a b : pystr) :
  locals !! py "First" = Some (VStr a) →
  locals !! py "Last" = Some (VStr b) →
  eval ∅ locals (py "First + ' ' + Last")
  = Some (Returns (VStr (a ++ py " " ++ b))).
Proof.
  intros Ha Hb. unfold eval.
  assert (E : parse (py "First + ' ' + Last")
              = Parsed (EAdd (EAdd (EName (py "First")) (EStr (py " ")))
                             (EName (py "Last"))))
    by (vm_compute; reflexivity).
  rewrite E. simpl. unfold lookup_name. rewrite Ha, Hb. simpl.
  by rewrite <- app_assoc.
Qed.

(** After the code points of a name, a code point that ends the name. *)
Lemma lex_name_then (acc r rest : pystr) (c : N) :
  forallb name_char r = true → name_char c = false → is_quote c = false →
  lex (InName acc) (r ++ c :: rest)
  = match start_char c with
    | Some (t, m) => (λ ts, TName (rev acc ++ r) :: t ++ ts) <$> lex m rest
    | None => None
    end.
Proof.
  revert acc. induction r as [|c' r IH]; intros acc Hr Hc Hq; simpl.
  - rewrite Hc, Hq. by rewrite app_nil_r.
  - simpl in Hr. apply andb_true_iff in Hr as [Hc' Hr].
    rewrite Hc', (IH _ Hr Hc Hq). simpl. by rewrite <- app_assoc.
Qed.

Lemma lex_len_call (x : pystr) :
  is_identifier x = true →
  lex Start (py "len(" ++ x ++ py ")")
  = Some [TName (py "len"); TLParen; TName x; TRParen].
Proof.
  unfold is_identifier. intros H. apply andb_true_iff in H as [H _].
  destruct x as [|c r]; [done|]. apply andb_true_iff in H as [Hc Hr].
  change (py "len(" ++ (c :: r) ++ py ")")
    with (108 :: 101 :: 110 :: 40 :: c :: r ++ 41 :: []).
  simpl. unfold start_char at 1.
  rewrite (name_start_not_blank _ Hc), Hc.
  by rewrite (lex_name_then [c] r [] 41 Hr eq_refl eq_refl).
Qed.

Lemma lex_strip_call (x : pystr) :
  is_identifier x = true →
  lex Start (x ++ py ".strip()")
  = Some [TName x; TDot; TName (py "strip"); TLParen; TRParen].
Proof.
  unfold is_identifier. intros H. apply andb_true_iff in H as [H _].
  destruct x as [|c r]; [done|]. apply andb_true_iff in H as [Hc Hr].
  change ((c :: r) ++ py ".strip()")
    with (c :: r ++ 46 :: py "strip()").
  simpl. unfold start_char at 1.
  rewrite (name_start_not_blank _ Hc), Hc.
  by rewrite (lex_name_then [c] r (py "strip()") 46 Hr eq_refl eq_refl).
Qed.

Lemma is_identifier_unreserved (x : pystr) :
  is_identifier x = true → reserved x = false.
Proof.
  intros H. apply andb_true_iff in H as [_ H]. by apply negb_true_iff in H.
Qed.

Lemma pbind_parsed {A B} (a : A) (f : A → parsed B) :
  pbind (Parsed a) f = f a.
Proof. reflexivity. Qed.

(** One step of each parsing function, for any amount of fuel left. *)
Lemma parse_sum_step (n : nat) (ts : list token) :
  parse_sum (S n) ts
  = pbind (parse_primary n ts) (λ r, parse_sum_rest n r.1 r.2).
Proof. reflexivity. Qed.

Lemma parse_sum_rest_nil (n : nat) (e : expr) :
  parse_sum_rest (S n) e [] = Parsed (e, []).
Proof. reflexivity. Qed.

Lemma parse_sum_rest_rparen (n : nat) (e : expr) (ts : list token) :
  parse_sum_rest (S n) e (TRParen :: ts) = Parsed (e, TRParen :: ts).
Proof. reflexivity. Qed.

Lemma parse_primary_name (n : nat) (x : pystr) (ts : list token) :
  reserved x = false →
  parse_primary (S n) (TName x :: ts) = parse_trailers n (EName x) ts.
Proof.
  intros Hx. change (parse_primary (S n) (TName x :: ts))
    with (pbind (atom_of_name x) (λ a, parse_trailers n a ts)).
  by rewrite (atom_of_unreserved x Hx).
Qed.

Lemma parse_trailers_nil (n : nat) (e : expr) :
  parse_trailers (S n) e [] = Parsed (e, []).
Proof. reflexivity. Qed.

Lemma parse_trailers_rparen (n : nat) (e : expr) (ts : list token) :
  parse_trailers (S n) e (TRParen :: ts) = Parsed (e, TRParen :: ts).
Proof. reflexivity. Qed.

Lemma parse_trailers_call1 (n : nat) (e : expr) (x : pystr)
    (ts : list token) :
  parse_trailers (S n) e (TLParen :: TName x :: ts)
  = pbind (parse_sum n (TName x :: ts))
          (λ r, match r.2 with
                | TRParen :: ts' => parse_trailers n (ECall1 e r.1) ts'
                | _ => Outside
                end).
Proof. reflexivity. Qed.

Lemma parse_trailers_call0 (n : nat) (e : expr) (ts : list token) :
  parse_trailers (S n) e (TLParen :: TRParen :: ts)
  = parse_trailers n (ECall0 e) ts.
Proof. reflexivity. Qed.

Lemma parse_trailers_attr (n : nat) (e : expr) (x : pystr)
    (ts : list token) :
  reserved x = false →
  parse_trailers (S n) e (TDot :: TName x :: ts)
  = parse_trailers n (EAttr e x) ts.
Proof.
  intros Hx. change (parse_trailers (S n) e (TDot :: TName x :: ts))
    with (if reserved x then Outside else parse_trailers n (EAttr e x) ts).
  by rewrite Hx.
Qed.

Lemma parse_len_call (x : pystr) :
  is_identifier x = true →
  parse (py "len(" ++ x ++ py ")")
  = Parsed (ECall1 (EName (py "len")) (EName x)).
Proof.
  intros Hx.
  rewrite (parse_tokens _ _ (lex_len_call x Hx)) by reflexivity.
  pose proof (is_identifier_unreserved x Hx) as Hres.
  change (4 * S (length [TName (py "len"); TLParen; TName x; TRParen]))%nat
    with 20%nat.
  rewrite parse_sum_step, (parse_primary_name _ (py "len")) by reflexivity.
  rewrite parse_trailers_call1, parse_sum_step.
  rewrite (parse_primary_name _ x) by done.
  rewrite parse_trailers_rparen, pbind_parsed. cbn [fst snd].
  rewrite parse_sum_rest_rparen, pbind_parsed. cbn [fst snd].
  rewrite parse_trailers_nil, pbind_parsed. cbn [fst snd].
  rewrite parse_sum_rest_nil. reflexivity.
Qed.

Lemma parse_strip_call (x : pystr) :
  is_identifier x = true →
  parse (x ++ py ".strip()") = Parsed (ECall0 (EAttr (EName x) (py "strip"))).
Proof.
  intros Hx.
  rewrite (parse_tokens _ _ (lex_strip_call x Hx)) by reflexivity.
  pose proof (is_identifier_unreserved x Hx) as Hres.
  change (4 * S (length [TName x; TDot; TName (py "strip"); TLParen;
                         TRParen]))%nat
    with 24%nat.
  rewrite parse_sum_step, (parse_primary_name _ x) by done.
  rewrite (parse_trailers_attr _ _ (py "strip")) by reflexivity.
  rewrite parse_trailers_call0, parse_trailers_nil, pbind_parsed.
  cbn [fst snd]. rewrite parse_sum_rest_nil. reflexivity.
Qed.

(** A name of [builtins] is within reach of the expression. *)
Lemma eval_len_call (locals : gmap pystr pyval) (x s : pystr) :
  is_identifier x = true → locals !! x = Some (VStr s) →
  locals !! py "len" = None →
  eval ∅ locals (py "len(" ++ x ++ py ")")
  = Some (Returns (VInt (Z.of_nat (length s)))).
Proof.
  intros Hx Hs Hlen. unfold eval. rewrite (parse_len_call x Hx).
  simpl eval_expr. unfold lookup_name.
  rewrite Hlen, Hs, !lookup_empty. reflexivity.
Qed.

(** So is attribute access, and the call of a method. *)
Lemma eval_strip_call (locals : gmap pystr pyval) (x s : pystr) :
  is_identifier x = true → locals !! x = Some (VStr s) →
  eval ∅ locals (x ++ py ".strip()") = Some (Returns (VStr (Str.strip s))).
Proof.
  intros Hx Hs. unfold eval. rewrite (parse_strip_call x Hx).
  simpl eval_expr. unfold lookup_name. rewrite Hs. reflexivity.
Qed.



(** ** The data reconstructor *)

Import Reconstructor.


Section ReconstructFacts.
Variable py_eval : source → frame → option (outcome * frame).


(** The body of the loop on an entry that is not [None]. *)
Lemma step_entry (fr : frame) (k : pystr) (e : pyval) :
  e ≠ VNone →
  step py_eval fr k e
  = match resolve py_eval e fr with
    | Some (Ok value, fr') => Some (Ok (store k value fr'))
    | Some (Escaped, _) => Some Escaped
    | None => None
    end.
Proof. by destruct e. Qed.

Lemma stored_value_entry (fr : frame) (e : pyval) :
  e ≠ VNone →
  stored_value py_eval e fr
  = match resolve py_eval e fr with
    | Some (Ok value, _) => if truthy value then Some value else None
    | _ => None
    end.
Proof. by destruct e. Qed.

Lemma is_VNone (e : pyval) : e = VNone ∨ e ≠ VNone.
Proof. destruct e; auto. Qed.



(** One pass through the body of the loop on a quiet entry. *)
Lemma step_quiet (fr : frame) (k : pystr) (e : pyval) :
  quiet py_eval e →
  ∃ fr1, step py_eval fr k e = Some (Ok fr1)
         ∧ raw_user_data fr1 = raw_user_data fr
         ∧ final_data fr1
           = match stored_value py_eval e fr with
             | Some v => <[ k := v ]> (final_data fr)
             | None => final_data fr
             end.
Proof.
  intros Hq. destruct (is_VNone e) as [->|He].
  { by exists fr. }
  rewrite step_entry, stored_value_entry by done. unfold resolve.
  destruct (Hq fr) as (o & -> & Hexn).
  assert (Hstore : ∀ value,
            raw_user_data (store k value fr) = raw_user_data fr
            ∧ final_data (store k value fr)
              = match (if truthy value then Some value else None) with
                | Some v => <[ k := v ]> (final_data fr)
                | None => final_data fr
                end).
  { intros value. unfold store. by destruct (truthy value). }
  destruct o as [value|x].
  - exists (store k value fr). split; [done|apply Hstore].
  - rewrite (Hexn x eq_refl).
    exists (store k (fallback e fr) fr). split; [done|apply Hstore].
Qed.

(** The loop over a mapping whose entries are all quiet ends with a table.
    The user data is as before; a slot that is no key of the mapping is as
    before; and the slot of an entry holds what the entry stores, evaluated
    with the user data as it was, or is as before when it stores nothing. *)
Lemma loop_quiet (items : list (pystr * pyval)) (fr : frame) :
  Forall (λ it, quiet py_eval it.2) items → NoDup (fst <$> items) →
  ∃ fr', loop py_eval items fr = Some (Ok fr')
         ∧ raw_user_data fr' = raw_user_data fr
         ∧ (∀ slot, slot ∉ fst <$> items →
                    final_data fr' !! slot = final_data fr !! slot)
         ∧ ∀ slot e, (slot, e) ∈ items →
             ∃ fr1, raw_user_data fr1 = raw_user_data fr
                    ∧ final_data fr' !! slot
                      = match stored_value py_eval e fr1 with
                        | Some v => Some v
                        | None => final_data fr !! slot
                        end.
Proof.
  revert fr. induction items as [|[k e] items IH]; intros fr Hall Hnd; simpl.
  - exists fr. split; [done|]. split; [done|]. split; [done|].
    intros slot e Hin. by apply elem_of_nil in Hin.
  - apply Forall_cons in Hall as [He Hall]. simpl in He.
    apply NoDup_cons in Hnd as [Hk Hnd].
    destruct (step_quiet fr k e He) as (fr1 & -> & Hraw1 & Hfinal1).
    destruct (IH fr1 Hall Hnd) as (fr' & Hloop & Hraw & Hout & Hin).
    assert (Hother : ∀ slot, slot ≠ k →
              final_data fr1 !! slot = final_data fr !! slot).
    { intros slot Hslot. rewrite Hfinal1.
      destruct (stored_value py_eval e fr); [|done].
      by rewrite lookup_insert_ne. }
    exists fr'. split; [done|]. split; [congruence|]. split.
    + intros slot Hslot. apply not_elem_of_cons in Hslot as [Hne Hslot].
      rewrite (Hout slot Hslot). by apply Hother.
    + intros slot e' Hslot. apply elem_of_cons in Hslot as [[= -> ->]|Hslot].
      * exists fr. split; [done|]. rewrite (Hout k Hk), Hfinal1.
        destruct (stored_value py_eval e fr); [|done].
        by rewrite lookup_insert_eq.
      * destruct (Hin slot e' Hslot) as (fr2 & Hraw2 & Hlook).
        exists fr2. split; [congruence|]. rewrite Hlook.
        destruct (stored_value py_eval e' fr2); [done|].
        apply Hother. intros ->. apply Hk.
        apply list_elem_of_fmap. by exists (k, e').
Qed.

(** The same for the function. *)
Lemma reconstruct_quiet (user_data : gmap pystr pystr)
    (field_mapping : list (pystr * pyval)) :
  Forall (λ it, quiet py_eval it.2) field_mapping →
  NoDup (fst <$> field_mapping) →
  ∃ final,
    reconstruct_user_data py_eval user_data field_mapping = Some (Ok final)
    ∧ (∀ slot, slot ∉ fst <$> field_mapping → final !! slot = None)
    ∧ ∀ slot e, (slot, e) ∈ field_mapping →
        ∃ fr, raw_user_data fr = VStr <$> user_data
              ∧ final !! slot = stored_value py_eval e fr.
Proof.
  intros Hall Hnd.
  destruct (loop_quiet field_mapping (Frame (VStr <$> user_data) ∅) Hall Hnd)
    as (fr' & Hloop & _ & Hout & Hin).
  exists (final_data fr'). unfold reconstruct_user_data. rewrite Hloop.
  split; [done|]. split.
  - intros slot Hslot. by rewrite (Hout slot Hslot).
  - intros slot e Hslot. destruct (Hin slot e Hslot) as (fr & Hraw & Hlook).
    exists fr. split; [done|]. rewrite Hlook. simpl.
    by destruct (stored_value py_eval e fr).
Qed.

(** An entry whose evaluation returns a truthy value stores it. *)
Lemma stored_returns (src : pystr) (v : pyval) (fr : frame) :
  py_eval (SrcStr src) fr = Some (Returns v, fr) → truthy v = true →
  stored_value py_eval (VStr src) fr = Some v.
Proof.
  intros Hev Hv. unfold stored_value, resolve, eval_entry. simpl.
  by rewrite Hev, Hv.
Qed.


End ReconstructFacts.

Lemma eval_or_extends (dflt : outcome) : extends (eval_or dflt).
Proof. intros src fr o H. unfold eval_or. by rewrite H. Qed.







(** C7.  With "First" bound to "Ali" and "Last" to "Khan" in the user
    data, the mapping entry "Name" with the expression "First + ' ' + Last"
    is reconstructed to "Ali Khan": alone it gives the table with that one
    entry, and in a mapping whose entries all evaluate without changing the
    two dictionaries and without letting an exception escape it gives that
    entry of the table. *)
Theorem name_from_first_and_last
    (py_eval : source → frame → option (outcome * frame))
    (user_data : gmap pystr pystr) :
  extends py_eval →
  user_data !! py "First" = Some (py "Ali") →
  user_data !! py "Last" = Some (py "Khan") →
  reconstruct_user_data py_eval user_data
    [ (py "Name", VStr (py "First + ' ' + Last")) ]
  = Some (Ok {[ py "Name" := VStr (py "Ali Khan") ]})
  ∧ ∀ field_mapping,
      NoDup (fst <$> field_mapping) →
      Forall (λ it, quiet py_eval it.2) field_mapping →
      (py "Name", VStr (py "First + ' ' + Last")) ∈ field_mapping →
      ∃ table,
        reconstruct_user_data py_eval user_data field_mapping
        = Some (Ok table)
        ∧ table !! py "Name" = Some (VStr (py "Ali Khan")).
Proof.
  intros Hext HFirst HLast.
  assert (Hev : ∀ fr, raw_user_data fr = VStr <$> user_data →
            py_eval (SrcStr (py "First + ' ' + Last")) fr
            = Some (Returns (VStr (py "Ali Khan")), fr)).
  { intros fr Hraw. apply Hext. rewrite Hraw.
    rewrite (eval_concat _ (py "Ali") (py "Khan")); [done| |];
      by rewrite lookup_fmap, ?HFirst, ?HLast. }
  split.
  - unfold reconstruct_user_data, loop, step, resolve, eval_entry. simpl.
    rewrite (Hev (Frame (VStr <$> user_data) ∅) eq_refl).
    unfold store. simpl.
    by rewrite insert_empty.
  - intros field_mapping Hnd Hall Hin.
    destruct (reconstruct_quiet py_eval user_data field_mapping Hall Hnd)
      as (table & Hrec & _ & Hlook).
    exists table. split; [done|].
    destruct (Hlook _ _ Hin) as (fr & Hraw & ->).
    by apply stored_returns; [apply Hev|].
Qed.

Lemma name_from_first_and_last_witness :
  let ud : gmap pystr pystr :=
    {[ py "First" := py "Ali"; py "Last" := py "Khan";
       py "City" := py "Lahore" ]} in
  reconstruct_user_data (eval_or (Raises NameError)) ud
    [ (py "Name", VStr (py "First + ' ' + Last")) ]
  = Some (Ok {[ py "Name" := VStr (py "Ali Khan") ]}).
Proof.
  exact (proj1 (name_from_first_and_last (eval_or (Raises NameError))
                  {[ py "First" := py "Ali"; py "Last" := py "Khan";
                     py "City" := py "Lahore" ]}
                  (eval_or_extends _) eq_refl eq_refl)).
Defined.

(** C1, as the code has it.  An expression string is evaluated by
    Python's [eval] with empty globals and the user data as locals.  A label
    that is an ASCII identifier is a variable bound to its value, and nothing
    is restricted: the names of [builtins] and attribute access are within
    reach, so that for such a label "len(label)" is the length of its value,
    unless "len" is itself a label, and "label.strip()" the value without
    the blanks around it.  These evaluations leave the two dictionaries of
    the function as they are. *)
Theorem eval_environment_unrestricted
    (py_eval : source → frame → option (outcome * frame))
    (fr : frame) (x s : pystr) :
  extends py_eval →
  is_identifier x = true → raw_user_data fr !! x = Some (VStr s) →
  eval_entry py_eval (VStr x) fr = Some (Returns (VStr s), fr)
  ∧ (raw_user_data fr !! py "len" = None →
     eval_entry py_eval (VStr (py "len(" ++ x ++ py ")")) fr
     = Some (Returns (VInt (Z.of_nat (length s))), fr))
  ∧ eval_entry py_eval (VStr (x ++ py ".strip()")) fr
    = Some (Returns (VStr (Str.strip s)), fr).
Proof.
  intros Hext Hx Hs. unfold eval_entry. simpl. repeat split.
  - apply Hext. by apply eval_identifier.
  - intros Hlen. apply Hext. by apply eval_len_call.
  - apply Hext. by apply eval_strip_call.
Qed.

Lemma eval_environment_unrestricted_witness :
  let ev := eval_or (Raises NameError) in
  let fr := Frame {[ py "First" := VStr (py " Ali ") ]} ∅ in
  eval_entry ev (VStr (py "First")) fr = Some (Returns (VStr (py " Ali ")), fr)
  ∧ (raw_user_data fr !! py "len" = None →
     eval_entry ev (VStr (py "len(First)")) fr = Some (Returns (VInt 5), fr))
  ∧ eval_entry ev (VStr (py "First.strip()")) fr
    = Some (Returns (VStr (py "Ali")), fr).
Proof.
  exact (eval_environment_unrestricted (eval_or (Raises NameError))
           (Frame {[ py "First" := VStr (py " Ali ") ]} ∅)
           (py "First") (py " Ali ")
           (eval_or_extends _) eq_refl eq_refl).
Defined.

(** C1, as the specification states it, fails: an expression outside the
    restricted ones, here the call of the builtin [len], evaluates to a
    value. *)
Lemma builtins_within_reach :
  ¬ ∀ py_eval, extends py_eval →
      ∀ (fr : frame) src e,
        parse src = Parsed e → restricted (raw_user_data fr) e = false →
        ∀ v fr', eval_entry py_eval (VStr src) fr ≠ Some (Returns v, fr').
Proof.
  intros H.
  apply (H (eval_or (Raises NameError)) (eval_or_extends _)
           (Frame {[ py "First" := VStr (py "Ali") ]} ∅) (py "len(First)")
           (ECall1 (EName (py "len")) (EName (py "First")))
           eq_refl eq_refl (VInt 3)
           (Frame {[ py "First" := VStr (py "Ali") ]} ∅)).
  vm_compute. reflexivity.
Qed.




(** ** The flat-form filler *)

Import Filler.

Section FillFacts.
Context {float : Type} `{EqDecision float}.
Variable round1 : float → float.
Variable fadd : float → Z → float.
Variable lower : pystr → pystr.

Abbreviation wordT := (@word float).
Abbreviation lines_of := (group_lines round1).
Abbreviation matches := (line_matches lower).
Abbreviation locate_ := (locate fadd lower).

Lemma setdefault_append_nonempty (lines : list (float * list wordT))
    (k : float) (w : wordT) :
  Forall (λ l, l.2 ≠ []) lines →
  Forall (λ l, l.2 ≠ []) (setdefault_append lines k w).
Proof.
  induction lines as [|[k' ws] lines IH]; simpl.
  - intros _. by repeat constructor.
  - intros Hl. apply Forall_cons in Hl as [Hws Hl].
    destruct (decide (k' = k)); constructor; simpl; auto.
    by destruct ws.
Qed.

(** No line of a page is without words. *)
Lemma group_lines_nonempty (words : list wordT) :
  Forall (λ l, l.2 ≠ []) (lines_of words).
Proof.
  unfold group_lines.
  assert (G : ∀ acc : list (float * list wordT),
                Forall (λ l, l.2 ≠ []) acc →
                Forall (λ l, l.2 ≠ [])
                  (foldl (λ lines w,
                     setdefault_append lines (round1 (top w)) w) acc words)).
  { induction words as [|w words IH]; simpl; [done|].
    intros acc Hacc. apply IH. by apply setdefault_append_nonempty. }
  apply G. constructor.
Qed.

(** The lines before the first one that matches play no part. *)
Lemma locate_skip (label : pystr) (before rest : list (float * list wordT)) :
  Forall (λ l, matches label l.2 = false) before →
  locate_ label (before ++ rest) = locate_ label rest.
Proof.
  induction before as [|[k ws] before IH]; simpl; [done|].
  intros Hb. apply Forall_cons in Hb as [Hws Hb]. simpl in Hws.
  rewrite Hws. by apply IH.
Qed.

(** Nor do the lines after it. *)
Lemma locate_here (label tok : pystr) (toks : list pystr) (k : float)
    (ws : list wordT) (after : list (float * list wordT)) (a : wordT) :
  matches label ws = true → Str.split label = tok :: toks →
  anchor lower (lower tok) ws = Some a →
  locate_ label ((k, ws) :: after) = Ok (Some (fadd (x1 a) 50, top a)).
Proof. intros Hm Htok Ha. simpl. by rewrite Hm, Htok, Ha. Qed.

(** The anchor of a line: the first word that is the token, in lower
    case, and the first word of the line when there is none. *)
Lemma anchor_spec (t : pystr) (ws : list wordT) :
  ws ≠ [] →
  ∃ a, anchor lower t ws = Some a
       ∧ ((lower (text a) = t
           ∧ ∃ l1 l2, ws = l1 ++ a :: l2
                      ∧ ∀ w, w ∈ l1 → lower (text w) ≠ t)
          ∨ ((∀ w, w ∈ ws → lower (text w) ≠ t) ∧ head ws = Some a)).
Proof.
  intros Hne. unfold anchor.
  destruct (find _ ws) as [a|] eqn:Hfind.
  - exists a. split; [done|]. left.
    clear Hne. induction ws as [|w ws IH]; [done|]. simpl in Hfind.
    case_bool_decide as Hw.
    + injection Hfind as ->. split; [done|].
      exists [], ws. split; [done|]. intros w Hin. by apply elem_of_nil in Hin.
    + destruct (IH Hfind) as (Ha & l1 & l2 & -> & Hl1). split; [done|].
      exists (w :: l1), l2. split; [done|].
      intros w' Hin. apply elem_of_cons in Hin as [->|Hin]; auto.
  - destruct ws as [|w ws]; [done|]. exists w. split; [done|]. right.
    split; [|done]. intros w' Hin.
    apply list_elem_of_In in Hin.
    pose proof (find_none _ _ Hfind w' Hin) as Hw'. simpl in Hw'.
    by apply bool_decide_eq_false in Hw'.
Qed.

(** A label with a token lets no exception escape. *)
Lemma locate_returns (label : pystr) (lines : list (float * list wordT)) :
  Str.split label ≠ [] → Forall (λ l, l.2 ≠ []) lines →
  ∃ r, locate_ label lines = Ok r.
Proof.
  intros Htok. induction lines as [|[k ws] lines IH]; simpl.
  - intros _. by eexists.
  - intros Hl. apply Forall_cons in Hl as [Hws Hl]. simpl in Hws.
    destruct (matches label ws); [|by apply IH].
    destruct (Str.split label) as [|tok toks]; [done|].
    destruct (anchor_spec (lower tok) ws Hws) as (a & -> & _). by eexists.
Qed.

Lemma page_coords_lookup (i : nat) (lines : list (float * list wordT))
    (labels : list pystr) (cm cm' : gmap pystr (nat * float * float)) :
  page_coords fadd lower i lines labels cm = Ok cm' →
  ∀ l, cm' !! l = page_entry fadd lower i lines labels cm l.
Proof.
  revert cm. induction labels as [|l0 labels IH]; simpl; intros cm.
  - intros [= <-] l. unfold page_entry.
    case_decide as Hin; [by apply elem_of_nil in Hin|done].
  - destruct (locate_ l0 lines) as [[[x y]|]|] eqn:Hloc; [| |done].
    + intros Hrec l. rewrite (IH _ Hrec l). unfold page_entry.
      destruct (decide (l = l0)) as [->|Hne].
      * rewrite Hloc, lookup_insert_eq.
        rewrite (decide_True (P := l0 ∈ l0 :: labels))
          by apply list_elem_of_here.
        by case_decide.
      * rewrite lookup_insert_ne by done.
        case_decide as Hin.
        -- by rewrite decide_True by (by apply list_elem_of_further).
        -- rewrite decide_False; [done|].
           intros Hin'. apply elem_of_cons in Hin' as [?|?]; done.
    + intros Hrec l. rewrite (IH _ Hrec l). unfold page_entry.
      destruct (decide (l = l0)) as [->|Hne].
      * rewrite Hloc.
        rewrite (decide_True (P := l0 ∈ l0 :: labels))
          by apply list_elem_of_here.
        by case_decide.
      * case_decide as Hin.
        -- by rewrite decide_True by (by apply list_elem_of_further).
        -- rewrite decide_False; [done|].
           intros Hin'. apply elem_of_cons in Hin' as [?|?]; done.
Qed.

Lemma page_coords_returns (i : nat) (lines : list (float * list wordT))
    (labels : list pystr) (cm : gmap pystr (nat * float * float)) :
  Forall (λ l, Str.split l ≠ []) labels → Forall (λ l, l.2 ≠ []) lines →
  ∃ cm', page_coords fadd lower i lines labels cm = Ok cm'.
Proof.
  intros Hlabels Hlines. revert cm.
  induction Hlabels as [|l0 labels Hl0 _ IH]; simpl; intros cm.
  - by eexists.
  - destruct (locate_returns l0 lines Hl0 Hlines) as [[[x y]|] ->];
      apply IH.
Qed.

Lemma pages_coords_returns (i : nat) (pages : list (list wordT))
    (labels : list pystr) (cm : gmap pystr (nat * float * float)) :
  Forall (λ l, Str.split l ≠ []) labels →
  ∃ cm', pages_coords round1 fadd lower i pages labels cm = Ok cm'.
Proof.
  intros Hlabels. revert i cm.
  induction pages as [|p pages IH]; simpl; intros i cm; [by eexists|].
  destruct (page_coords_returns i (lines_of p) labels cm Hlabels
              (group_lines_nonempty p)) as [cm1 ->].
  apply IH.
Qed.

Lemma pages_coords_app (i : nat) (pre rest : list (list wordT))
    (labels : list pystr) (cm : gmap pystr (nat * float * float)) :
  pages_coords round1 fadd lower i (pre ++ rest) labels cm
  = match pages_coords round1 fadd lower i pre labels cm with
    | Ok cm1 =>
        pages_coords round1 fadd lower (i + length pre) rest labels cm1
    | Escaped => Escaped
    end.
Proof.
  revert i cm. induction pre as [|p pre IH]; simpl; intros i cm.
  - by rewrite Nat.add_0_r.
  - destruct (page_coords _ _ _ _ _ _) as [cm1|]; [|done].
    rewrite IH.
    by replace (S i + length pre)%nat with (i + S (length pre))%nat by lia.
Qed.

(** The pages on which a label matches no line leave its entry as it
    is. *)
Lemma pages_coords_unmatched (i : nat) (pages : list (list wordT))
    (labels : list pystr) (cm cm' : gmap pystr (nat * float * float))
    (l : pystr) :
  Forall (λ q, locate_ l (lines_of q) = Ok None) pages →
  pages_coords round1 fadd lower i pages labels cm = Ok cm' →
  cm' !! l = cm !! l.
Proof.
  intros Hpages. revert i cm.
  induction Hpages as [|p pages Hp _ IH]; simpl; intros i cm.
  - by intros [= <-].
  - destruct (page_coords _ _ _ _ _ _) as [cm1|] eqn:Hpage; [|done].
    intros Hrec. rewrite (IH _ _ Hrec).
    rewrite (page_coords_lookup _ _ _ _ _ Hpage l). unfold page_entry.
    rewrite Hp. by case_decide.
Qed.

(** The entry of a label in the coordinate map when it is found on a page
    and on none after it. *)
Lemma pages_coords_last (pre post : list (list wordT)) (p : list wordT)
    (labels : list pystr) (cm' : gmap pystr (nat * float * float))
    (l : pystr) (x y : float) :
  l ∈ labels →
  locate_ l (lines_of p) = Ok (Some (x, y)) →
  Forall (λ q, locate_ l (lines_of q) = Ok None) post →
  pages_coords round1 fadd lower 0 (pre ++ p :: post) labels ∅ = Ok cm' →
  cm' !! l = Some (length pre, x, y).
Proof.
  intros Hin Hp Hpost. rewrite pages_coords_app. simpl.
  destruct (pages_coords _ _ _ 0 pre labels ∅) as [cm1|]; [|done].
  destruct (page_coords _ _ _ _ _ _) as [cm2|] eqn:Hpage; [|done].
  intros Hrec. rewrite (pages_coords_unmatched _ _ _ _ _ _ Hpost Hrec).
  rewrite (page_coords_lookup _ _ _ _ _ Hpage l). unfold page_entry.
  by rewrite decide_True, Hp.
Qed.

Lemma stamps_elem (user_data : list (pystr * pyval))
    (cm : gmap pystr (nat * float * float)) (key : pystr) (v : pyval)
    (n : nat) (x y : float) :
  (key, v) ∈ user_data → cm !! key = Some (n, x, y) →
  {| page_num := n; rect := (x, y, fadd x 150, fadd y 20);
     text_at := (fadd x 2, fadd y 2); value := v |}
  ∈ stamps fadd user_data cm.
Proof.
  intros Hin Hcm. induction user_data as [|[k' v'] user_data IH];
    [by apply elem_of_nil in Hin|].
  apply elem_of_cons in Hin as [[= <- <-]|Hin]; simpl.
  - rewrite Hcm. apply list_elem_of_here.
  - destruct (cm !! k') as [[[n' x'] y']|]; [apply list_elem_of_further|];
      by apply IH.
Qed.

End FillFacts.

(** C9, as the code has it.  On a page, the coordinate of a label comes
    from the first line,
    in the order of the lines of the page, whose text holds the label, both
    in lower case.  The anchor is the first word of that line that is the
    first token of the label once both are in lower case, whether or not the
    two are equal as they stand, and the first word
    of the line when no word is; the insertion point is 50 units to the right
    of the right edge of the anchor, at its top.  The lines after that one
    play no part, whatever they hold.  The labels are assumed to have a
    token each: [label_key.split()[0]] raises otherwise. *)
Theorem first_matching_line_anchors {float : Type} `{EqDecision float}
    (round1 : float → float) (fadd : float → Z → float)
    (lower : pystr → pystr) (i : nat) (words : list (@word float))
    (labels : list pystr) (cm : gmap pystr (nat * float * float))
    (label tok : pystr) (toks : list pystr)
    (before after : list (float * list (@word float)))
    (k : float) (ws : list (@word float)) :
  Forall (λ l, Str.split l ≠ []) labels →
  label ∈ labels →
  Str.split label = tok :: toks →
  group_lines round1 words = before ++ (k, ws) :: after →
  Forall (λ l, line_matches lower label l.2 = false) before →
  line_matches lower label ws = true →
  ∃ cm' a,
    page_coords fadd lower i (group_lines round1 words) labels cm = Ok cm'
    ∧ cm' !! label = Some (i, fadd (x1 a) 50%Z, top a)
    ∧ ((lower (text a) = lower tok
        ∧ ∃ l1 l2, ws = l1 ++ a :: l2
                   ∧ ∀ w, w ∈ l1 → lower (text w) ≠ lower tok)
       ∨ ((∀ w, w ∈ ws → lower (text w) ≠ lower tok) ∧ head ws = Some a))
    ∧ ∀ after',
        locate fadd lower label (before ++ (k, ws) :: after')
        = Ok (Some (fadd (x1 a) 50%Z, top a)).
Proof.
  intros Hlabels Hin Htok Hlines Hbefore Hmatch.
  pose proof (group_lines_nonempty round1 words) as Hne.
  rewrite Hlines in Hne. apply Forall_app in Hne as [_ Hne].
  apply Forall_cons in Hne as [Hws _]. simpl in Hws.
  destruct (anchor_spec lower (lower tok) ws Hws) as (a & Ha & Hspec).
  assert (Hloc : ∀ after',
            locate fadd lower label (before ++ (k, ws) :: after')
            = Ok (Some (fadd (x1 a) 50%Z, top a))).
  { intros after'. rewrite (locate_skip fadd lower label before _ Hbefore).
    by apply (locate_here fadd lower label tok toks). }
  destruct (page_coords_returns fadd lower i (group_lines round1 words)
              labels cm Hlabels (group_lines_nonempty round1 words))
    as [cm' Hpage].
  exists cm', a. split; [done|]. split; [|by split].
  rewrite (page_coords_lookup fadd lower _ _ _ _ _ Hpage label).
  unfold page_entry. rewrite decide_True by done.
  by rewrite Hlines, (Hloc after).
Qed.

(** A page of three lines: "Date:", then "Full Name here", then "Name".
    The label "Name" is anchored at the word "Name" of the second line,
    whose right edge is at 80; the third line is not looked at. *)
Lemma first_matching_line_anchors_witness :
  let w1 := {| text := py "Date:"; x1 := 30%Z; top := 10%Z |} in
  let w2 := {| text := py "Full"; x1 := 40%Z; top := 20%Z |} in
  let w3 := {| text := py "Name"; x1 := 80%Z; top := 20%Z |} in
  let w4 := {| text := py "here"; x1 := 120%Z; top := 20%Z |} in
  let w5 := {| text := py "Name"; x1 := 50%Z; top := 40%Z |} in
  let words := [w1; w2; w3; w4; w5] in
  ∃ cm' a,
    page_coords Z.add Str.ascii_lower 0 (group_lines id words) [py "Name"] ∅
    = Ok cm'
    ∧ cm' !! py "Name" = Some (0%nat, (x1 a + 50)%Z, top a)
    ∧ ((Str.ascii_lower (text a) = Str.ascii_lower (py "Name")
        ∧ ∃ l1 l2, [w2; w3; w4] = l1 ++ a :: l2
                   ∧ ∀ w, w ∈ l1 →
                          Str.ascii_lower (text w)
                          ≠ Str.ascii_lower (py "Name"))
       ∨ ((∀ w, w ∈ [w2; w3; w4] →
                Str.ascii_lower (text w) ≠ Str.ascii_lower (py "Name"))
          ∧ head [w2; w3; w4] = Some a))
    ∧ ∀ after',
        locate Z.add Str.ascii_lower (py "Name")
          ([(10%Z, [w1])] ++ (20%Z, [w2; w3; w4]) :: after')
        = Ok (Some ((x1 a + 50)%Z, top a)).
Proof.
  intros w1 w2 w3 w4 w5 words.
  refine (first_matching_line_anchors id Z.add Str.ascii_lower 0 words
            [py "Name"] ∅ (py "Name") (py "Name") []
            [(10%Z, [w1])] [(40%Z, [w5])] 20%Z [w2; w3; w4] _ _ _ _ _ _).
  - repeat constructor. vm_compute. discriminate.
  - apply list_elem_of_here.
  - vm_compute. reflexivity.
  - vm_compute. reflexivity.
  - repeat constructor.
  - vm_compute. reflexivity.
Defined.

(** C9, as the specification states it, fails: on the line "Full NAME"
    the label "Name" is anchored at the word "NAME", which is not equal to the
    token "Name", and not at the first word of the line. *)
Lemma anchor_ignores_case :
  let words := [ {| text := py "Full"; x1 := 40%Z; top := 20%Z |};
                 {| text := py "NAME"; x1 := 80%Z; top := 20%Z |} ] in
  locate Z.add Str.ascii_lower (py "Name") (group_lines id words)
  ≠ Ok ((λ a, ((x1 a + 50)%Z, top a)) <$> exact_anchor (py "Name") words).
Proof. vm_compute. discriminate. Qed.

(** C10, as the code has it.  When a label is found on a page and on no
    page after it, the coordinate recorded for it is the one of that page,
    whatever the pages before it hold: a page where the label is found
    overwrites the entry of the earlier ones, so the value is stamped on the
    last page where the label is found.  This holds when every label of the
    user data has a token: [label_key.split()[0]] raises otherwise. *)
Theorem last_matching_page_wins {float : Type} `{EqDecision float}
    (round1 : float → float) (fadd : float → Z → float)
    (lower : pystr → pystr) (pre post : list (list (@word float)))
    (p : list (@word float)) (user_data : list (pystr * pyval))
    (label : pystr) (v : pyval) (x y : float) :
  Forall (λ l, Str.split l ≠ []) (fst <$> user_data) →
  (label, v) ∈ user_data →
  locate fadd lower label (group_lines round1 p) = Ok (Some (x, y)) →
  Forall (λ q, locate fadd lower label (group_lines round1 q) = Ok None)
         post →
  ∃ cm,
    pages_coords round1 fadd lower 0 (pre ++ p :: post) (fst <$> user_data) ∅
    = Ok cm
    ∧ cm !! label = Some (length pre, x, y)
    ∧ auto_fill_flat_pdf_smart round1 fadd lower (pre ++ p :: post) user_data
      = Ok (stamps fadd user_data cm)
    ∧ {| page_num := length pre; rect := (x, y, fadd x 150%Z, fadd y 20%Z);
         text_at := (fadd x 2%Z, fadd y 2%Z); value := v |}
      ∈ stamps fadd user_data cm.
Proof.
  intros Hlabels Hin Hp Hpost.
  destruct (pages_coords_returns round1 fadd lower 0 (pre ++ p :: post)
              (fst <$> user_data) ∅ Hlabels) as [cm Hcm].
  assert (Hlabel : label ∈ fst <$> user_data).
  { apply list_elem_of_fmap. by exists (label, v). }
  pose proof (pages_coords_last round1 fadd lower pre post p _ cm label x y
                Hlabel Hp Hpost Hcm) as Hlook.
  exists cm. split; [done|]. split; [done|]. split.
  - unfold auto_fill_flat_pdf_smart. by rewrite Hcm.
  - by apply (stamps_elem fadd user_data cm label).
Qed.

(** Three pages: the label "Name" is on the first and on the second, at
    different places, and not on the third.  The value is stamped on the
    second page, at the place found there. *)
Lemma last_matching_page_wins_witness :
  let page0 := [ {| text := py "Name:"; x1 := 60%Z; top := 100%Z |} ] in
  let page1 := [ {| text := py "Your"; x1 := 30%Z; top := 200%Z |};
                 {| text := py "name"; x1 := 70%Z; top := 200%Z |} ] in
  let page2 := [ {| text := py "Signature"; x1 := 90%Z; top := 300%Z |} ] in
  let user_data := [(py "Name", VStr (py "Ali Khan"))] in
  ∃ cm,
    pages_coords id Z.add Str.ascii_lower 0 ([page0] ++ page1 :: [page2])
      (fst <$> user_data) ∅ = Ok cm
    ∧ cm !! py "Name" = Some (1%nat, 120%Z, 200%Z)
    ∧ auto_fill_flat_pdf_smart id Z.add Str.ascii_lower
        ([page0] ++ page1 :: [page2]) user_data
      = Ok (stamps Z.add user_data cm)
    ∧ {| page_num := 1; rect := (120, 200, 120 + 150, 200 + 20)%Z;
         text_at := (120 + 2, 200 + 2)%Z; value := VStr (py "Ali Khan") |}
      ∈ stamps Z.add user_data cm.
Proof.
  intros page0 page1 page2 user_data.
  refine (last_matching_page_wins id Z.add Str.ascii_lower [page0] [page2]
            page1 user_data (py "Name") (VStr (py "Ali Khan")) 120%Z 200%Z
            _ _ _ _).
  - repeat constructor. vm_compute. discriminate.
  - apply list_elem_of_here.
  - vm_compute. reflexivity.
  - repeat constructor.
Defined.

(** C10, as the specification states it, fails: the label "Name" is found
    on two pages, but the user data also has an entry whose label is the
    empty string, which every line holds and which has no token.  On the
    first page [label_key.split()[0]] raises IndexError, the function stops
    and nothing is stamped, neither on the last matching page nor
    elsewhere. *)
Lemma blank_label_stops_the_fill :
  let page0 := [ {| text := py "Name:"; x1 := 60%Z; top := 100%Z |} ] in
  let page1 := [ {| text := py "Your"; x1 := 30%Z; top := 200%Z |};
                 {| text := py "name"; x1 := 70%Z; top := 200%Z |} ] in
  let user_data := [(py "Name", VStr (py "Ali Khan")); ([], VStr (py "x"))] in
  (locate Z.add Str.ascii_lower (py "Name") (group_lines id page0)
   = Ok (Some (110%Z, 100%Z))
   ∧ locate Z.add Str.ascii_lower (py "Name") (group_lines id page1)
     = Ok (Some (120%Z, 200%Z)))
  ∧ ¬ ∃ sts,
        auto_fill_flat_pdf_smart id Z.add Str.ascii_lower [page0; page1]
          user_data = Ok sts.
Proof.
  split; [split; vm_compute; reflexivity|].
  intros [sts Hfill]. vm_compute in Hfill. discriminate Hfill.
Qed.

(** * Further properties of the code *)

(** ** Stripping *)

Section StripFacts.
Variable p : N → bool.

Lemma lstrip_by_decomp (s : pystr) :
  ∃ pre, s = pre ++ Str.lstrip_by p s ∧ Forall (λ c, p c = true) pre.
Proof.
  induction s as [|c s (pre & Hs & Hpre)]; simpl.
  - exists []. by split.
  - destruct (p c) eqn:Hc.
    + exists (c :: pre). split; [by rewrite Hs at 1|by constructor].
    + exists []. by split.
Qed.

Lemma lstrip_by_head (s : pystr) (c : N) (r : pystr) :
  Str.lstrip_by p s = c :: r → p c = false.
Proof.
  induction s as [|c' s IH]; simpl; [done|].
  destruct (p c') eqn:Hc'; [done|]. by intros [= <- _].
Qed.

Lemma lstrip_by_unchanged (s : pystr) :
  (∀ c r, s = c :: r → p c = false) → Str.lstrip_by p s = s.
Proof.
  destruct s as [|c s]; [done|]. intros H. simpl.
  by rewrite (H c s eq_refl).
Qed.

(** What [strip] removes: code points of the class at both ends. *)
Lemma strip_by_decomp (s : pystr) :
  ∃ pre post, s = pre ++ Str.strip_by p s ++ post
              ∧ Forall (λ c, p c = true) pre
              ∧ Forall (λ c, p c = true) post.
Proof.
  unfold Str.strip_by, Str.rstrip_by.
  destruct (lstrip_by_decomp s) as (pre & Hs & Hpre).
  destruct (lstrip_by_decomp (rev (Str.lstrip_by p s))) as (q & Hq & Hq').
  exists pre, (rev q). split; [|split; [done|by apply Forall_rev]].
  rewrite Hs at 1. f_equal.
  rewrite <- (rev_involutive (Str.lstrip_by p s)) at 1.
  rewrite Hq at 1. by rewrite rev_app_distr.
Qed.

(** What it leaves: a string that neither starts nor ends with one. *)
Lemma strip_by_first (s : pystr) (c : N) (r : pystr) :
  Str.strip_by p s = c :: r → p c = false.
Proof.
  unfold Str.strip_by, Str.rstrip_by. intros Hr.
  destruct (lstrip_by_decomp (rev (Str.lstrip_by p s))) as (q & Hq & _).
  apply (f_equal (@rev N)) in Hq. rewrite rev_involutive in Hq.
  rewrite rev_app_distr, Hr in Hq. simpl in Hq.
  by apply (lstrip_by_head s c (r ++ rev q)).
Qed.

Lemma strip_by_last (s r : pystr) (c : N) :
  Str.strip_by p s = r ++ [c] → p c = false.
Proof.
  unfold Str.strip_by, Str.rstrip_by. intros Hr.
  apply (f_equal (@rev N)) in Hr.
  rewrite rev_involutive, rev_app_distr in Hr. simpl in Hr.
  by apply lstrip_by_head in Hr.
Qed.

Lemma strip_by_nil (s : pystr) :
  Str.strip_by p s = [] ↔ Forall (λ c, p c = true) s.
Proof.
  split.
  - intros Hnil. destruct (strip_by_decomp s) as (pre & post & Hs & Hp & Hq).
    rewrite Hs, Hnil. simpl. by apply Forall_app.
  - intros Hall. destruct (Str.strip_by p s) as [|c r] eqn:Hr; [done|].
    pose proof (strip_by_first s c r Hr) as Hc.
    destruct (strip_by_decomp s) as (pre & post & Hs & _).
    rewrite Hr in Hs. rewrite Hs in Hall.
    apply Forall_app in Hall as [_ Hall]. apply Forall_cons in Hall as [Hc' _].
    congruence.
Qed.

Lemma strip_by_unchanged (s : pystr) :
  (∀ c r, s = c :: r → p c = false) → (∀ r c, s = r ++ [c] → p c = false) →
  Str.strip_by p s = s.
Proof.
  intros Hfirst Hlast. unfold Str.strip_by, Str.rstrip_by.
  rewrite (lstrip_by_unchanged s Hfirst).
  rewrite lstrip_by_unchanged; [apply rev_involutive|].
  intros c r Hrev. apply (Hlast (rev r) c).
  apply (f_equal (@rev N)) in Hrev. by rewrite rev_involutive in Hrev.
Qed.

Lemma strip_by_idemp (s : pystr) :
  Str.strip_by p (Str.strip_by p s) = Str.strip_by p s.
Proof.
  apply strip_by_unchanged.
  - intros c r. apply strip_by_first.
  - intros r c. apply strip_by_last.
Qed.

(** A string that starts with a code point outside the class is not
    stripped to nothing, and neither is one that ends with one. *)
Lemma strip_by_keeps_first (c : N) (s : pystr) :
  p c = false → Str.strip_by p (c :: s) ≠ [].
Proof.
  intros Hc Hnil. apply strip_by_nil in Hnil.
  apply Forall_cons in Hnil as [Hc' _]. congruence.
Qed.

Lemma strip_by_keeps_last (s : pystr) (c : N) :
  p c = false → Str.strip_by p (s ++ [c]) ≠ [].
Proof.
  intros Hc Hnil. apply strip_by_nil in Hnil.
  apply Forall_app in Hnil as [_ Hnil].
  apply Forall_cons in Hnil as [Hc' _]. congruence.
Qed.

End StripFacts.

Lemma join_Forall (P : N → Prop) (sep : pystr) (parts : list pystr) :
  Forall P sep →
  Forall P (Str.join sep parts) ↔ Forall (Forall P) parts.
Proof.
  intros Hsep. induction parts as [|w [|w' ws] IH].
  - simpl. split; constructor.
  - simpl. by rewrite Forall_singleton.
  - change (Str.join sep (w :: w' :: ws))
      with (w ++ sep ++ Str.join sep (w' :: ws)).
    rewrite !Forall_app, IH, (Forall_cons _ w). tauto.
Qed.

(** ** The text of the uploaded document *)

(** The text that [extract_text_with_ocr] returns is used when no page has
    a code point that is not a blank, and the embedded text of the pages,
    joined by line feeds, as soon as one page has one. *)
Theorem ocr_fallback_when_blank (pages : list (option pystr))
    (ocr_text : pystr) :
  (Forall (λ page, Forall (λ c, Str.isspace c = true) (default [] page)) pages
   → Text.user_text pages ocr_text = ocr_text)
  ∧ (Exists (λ page, Exists (λ c, Str.isspace c = false) (default [] page))
       pages
     → Text.user_text pages ocr_text = Text.extract_text_from_pdf pages).
Proof.
  unfold Text.user_text.
  assert (Hblank : Str.strip (Text.extract_text_from_pdf pages) = []
            ↔ Forall (λ page, Forall (λ c, Str.isspace c = true)
                                (default [] page)) pages).
  { unfold Str.strip. rewrite strip_by_nil.
    unfold Text.extract_text_from_pdf.
    rewrite join_Forall by (by repeat constructor).
    by rewrite Forall_fmap. }
  split.
  - intros Hall. apply Hblank in Hall. by rewrite Hall.
  - intros Hex.
    assert (Hne : Str.strip (Text.extract_text_from_pdf pages) ≠ []).
    { intros Hstrip. apply Hblank in Hstrip.
      apply Exists_exists in Hex as (page & Hin & Hex).
      apply Exists_exists in Hex as (c & Hc & Hns).
      rewrite Forall_forall in Hstrip. specialize (Hstrip page Hin).
      rewrite Forall_forall in Hstrip. specialize (Hstrip c Hc). congruence. }
    by destruct (Str.strip (Text.extract_text_from_pdf pages)).
Qed.

(** ** The search history *)

(** Whatever its length before, the history has ten entries at most after
    a search is added, one more than before up to that bound; the search
    added is the last entry, and the entries kept are the most recent ones,
    in their order. *)
Theorem history_keeps_last_ten (now country query : pystr)
    (pdf_url : option pystr) (search_history : list History.search) :
  let added := {| History.timestamp := now; History.country := country;
                  History.query := query; History.pdf_url := pdf_url |} in
  let h := History.add_to_history now country query pdf_url search_history in
  length h = Nat.min 10 (S (length search_history))
  ∧ last h = Some added
  ∧ ∃ dropped, search_history ++ [added] = dropped ++ h.
Proof.
  intros added h. subst h. unfold History.add_to_history. fold added.
  assert (Hlen : length (search_history ++ [added])
                 = S (length search_history))
    by (rewrite length_app; simpl; lia).
  destruct (Nat.ltb_spec 10 (length (search_history ++ [added]))) as [Hlt|Hle].
  - split; [|split].
    + rewrite length_drop. lia.
    + rewrite Hlen, drop_app_le by lia. by rewrite last_snoc.
    + exists (take (length (search_history ++ [added]) - 10)
                   (search_history ++ [added])).
      by rewrite take_drop.
  - split; [lia|]. split; [by rewrite last_snoc|by exists []].
Qed.

(** ** The choice of a PDF link *)

Lemma find_first {A : Type} (f : A → bool) (l : list A) :
  match find f l with
  | Some x => ∃ l1 l2, l = l1 ++ x :: l2 ∧ f x = true
                       ∧ Forall (λ y, f y = false) l1
  | None => Forall (λ y, f y = false) l
  end.
Proof.
  induction l as [|a l IH]; simpl; [constructor|].
  destruct (f a) eqn:Ha.
  - exists [], l. by repeat split.
  - destruct (find f l) as [x|].
    + destruct IH as (l1 & l2 & -> & Hx & Hl1).
      exists (a :: l1), l2. repeat split; [done|by constructor].
    + by constructor.
Qed.

Section LinkFacts.
Variable lower : pystr → pystr.
Variable urljoin : pystr → pystr → option pystr.

Abbreviation links_of := (Links.pdf_links lower urljoin).
Abbreviation find_pdf := (Links.find_pdf_in_html_page lower urljoin).
Abbreviation is_relevant := (Links.relevant lower).

(** The first loop is left by an exception exactly when [urljoin] raises
    on an address that ends in ".pdf" and does not start with "http". *)
Lemma pdf_links_raises (url : pystr) (anchors : list (pystr * pystr)) :
  links_of url anchors = None
  ↔ ∃ a, a ∈ anchors
         ∧ Links.endswith (lower a.1) (py ".pdf") = true
         ∧ Links.full_url urljoin url a.1 = None.
Proof.
  induction anchors as [|a anchors IH]; simpl.
  - split; [done|]. intros (a & Ha & _). by apply elem_of_nil in Ha.
  - unfold Links.pdf_link at 1.
    destruct (Links.endswith (lower a.1) (py ".pdf")) eqn:Hpdf.
    + destruct (Links.full_url urljoin url a.1) as [u|] eqn:Hu.
      * destruct (links_of url anchors) as [ls|].
        -- split; [done|]. intros (b & Hb & Hbpdf & Hbu).
           apply elem_of_cons in Hb as [->|Hb]; [congruence|].
           assert (Hex : ∃ a, a ∈ anchors
                     ∧ Links.endswith (lower a.1) (py ".pdf") = true
                     ∧ Links.full_url urljoin url a.1 = None) by eauto.
           apply IH in Hex. done.
        -- split; [|done]. intros _.
           destruct (proj1 IH eq_refl) as (b & Hb & Hbpdf & Hbu).
           exists b. split; [by apply list_elem_of_further|done].
      * split; [|done]. intros _. exists a.
        split; [apply list_elem_of_here|done].
    + destruct (links_of url anchors) as [ls|].
      * split; [done|]. intros (b & Hb & Hbpdf & Hbu).
        apply elem_of_cons in Hb as [->|Hb]; [congruence|].
        assert (Hex : ∃ a, a ∈ anchors
                  ∧ Links.endswith (lower a.1) (py ".pdf") = true
                  ∧ Links.full_url urljoin url a.1 = None) by eauto.
        apply IH in Hex. done.
      * split; [|done]. intros _.
        destruct (proj1 IH eq_refl) as (b & Hb & Hbpdf & Hbu).
        exists b. split; [by apply list_elem_of_further|done].
Qed.

Lemma pdf_links_nil (url : pystr) (anchors : list (pystr * pystr)) :
  links_of url anchors = Some []
  ↔ Forall (λ a, Links.endswith (lower a.1) (py ".pdf") = false) anchors.
Proof.
  induction anchors as [|a anchors IH]; simpl.
  - split; [constructor|done].
  - rewrite Forall_cons, <- IH. unfold Links.pdf_link at 1.
    destruct (Links.endswith (lower a.1) (py ".pdf")); simpl.
    + split; [|by intros [? _]].
      destruct (Links.full_url urljoin url a.1); [|done].
      by destruct (links_of url anchors).
    + destruct (links_of url anchors) as [ls|]; simpl.
      * split; [by intros [= ->]|by intros [_ [= ->]]].
      * split; [done|by intros [_ ?]].
Qed.

Lemma pdf_links_elem (url : pystr) (anchors links : list (pystr * pystr))
    (link : pystr * pystr) :
  links_of url anchors = Some links → link ∈ links →
  ∃ a, a ∈ anchors
       ∧ Links.endswith (lower a.1) (py ".pdf") = true
       ∧ Links.full_url urljoin url a.1 = Some link.1
       ∧ link.2 = Str.strip a.2.
Proof.
  revert links. induction anchors as [|a anchors IH]; simpl; intros links.
  - intros [= <-] Hin. by apply elem_of_nil in Hin.
  - unfold Links.pdf_link at 1.
    destruct (Links.endswith (lower a.1) (py ".pdf")) eqn:Hpdf.
    + destruct (Links.full_url urljoin url a.1) as [u|] eqn:Hu; [|done].
      destruct (links_of url anchors) as [ls|]; [|done].
      intros [= <-] Hin. simpl in Hin.
      apply elem_of_cons in Hin as [->|Hin].
      * exists a. split; [apply list_elem_of_here|done].
      * destruct (IH ls eq_refl Hin) as (b & Hb & Hrest).
        exists b. split; [by apply list_elem_of_further|done].
    + destruct (links_of url anchors) as [ls|]; [|done].
      intros [= <-] Hin. simpl in Hin.
      destruct (IH ls eq_refl Hin) as (b & Hb & Hrest).
      exists b. split; [by apply list_elem_of_further|done].
Qed.

(** No link is returned exactly when no anchor leads to a name that ends
    in ".pdf", in any case of the letters, or when [urljoin] raises on such
    an address that does not start with "http".  Otherwise the link returned
    is the first one, in the order of the page, whose address or text holds
    one of the four keywords, and the first link of all when there is none.
    It is always the address of an anchor of the page, as it stands when it
    starts with "http" and joined to the address of the page otherwise. *)
Theorem pdf_link_choice (url : pystr) (anchors : list (pystr * pystr)) :
  (find_pdf url anchors = None
   ↔ Forall (λ a, Links.endswith (lower a.1) (py ".pdf") = false) anchors
     ∨ ∃ a, a ∈ anchors
            ∧ Links.endswith (lower a.1) (py ".pdf") = true
            ∧ Str.startswith a.1 (py "http") = false
            ∧ urljoin url a.1 = None)
  ∧ (∀ before link after,
       links_of url anchors = Some (before ++ link :: after) →
       Forall (λ l, is_relevant l = false) before →
       is_relevant link = true →
       find_pdf url anchors = Some link.1)
  ∧ (∀ link rest,
       links_of url anchors = Some (link :: rest) →
       Forall (λ l, is_relevant l = false) (link :: rest) →
       find_pdf url anchors = Some link.1)
  ∧ ∀ u, find_pdf url anchors = Some u →
         ∃ a, a ∈ anchors
              ∧ Links.endswith (lower a.1) (py ".pdf") = true
              ∧ Some u = (if Str.startswith a.1 (py "http") then Some a.1
                          else urljoin url a.1).
Proof.
  unfold Links.find_pdf_in_html_page.
  split; [|split; [|split]].
  - destruct (links_of url anchors) as [links|] eqn:Hlinks.
    + pose proof (find_first is_relevant links) as Hfind.
      assert (Hno : ¬ ∃ a, a ∈ anchors
                ∧ Links.endswith (lower a.1) (py ".pdf") = true
                ∧ Links.full_url urljoin url a.1 = None).
      { intros Hex. apply pdf_links_raises in Hex. congruence. }
      rewrite <- (pdf_links_nil url), Hlinks. unfold Links.choose.
      destruct (find _ _) as [x|].
      * destruct Hfind as (l1 & l2 & Heq & _). rewrite Heq. split; [done|].
        intros [Hnil|(a & Ha & Hpdf & Hhttp & Hjoin)].
        -- injection Hnil as Hnil. by destruct l1.
        -- exfalso. apply Hno. exists a. split; [done|]. split; [done|].
           unfold Links.full_url. by rewrite Hhttp.
      * destruct links as [|link rest]; [by split; [left|]|].
        split; [done|].
        intros [Hnil|(a & Ha & Hpdf & Hhttp & Hjoin)]; [done|].
        exfalso. apply Hno. exists a. split; [done|]. split; [done|].
        unfold Links.full_url. by rewrite Hhttp.
    + split; [|done]. intros _. right.
      apply pdf_links_raises in Hlinks as (a & Ha & Hpdf & Hu).
      exists a. unfold Links.full_url in Hu.
      by destruct (Str.startswith a.1 (py "http")).
  - intros before link after Hlinks Hbefore Hlink. rewrite Hlinks.
    pose proof (find_first is_relevant (before ++ link :: after)) as Hfind.
    unfold Links.choose.
    destruct (find _ _) as [x|].
    + destruct Hfind as (l1 & l2 & Heq & Hx & Hl1).
      assert (Hsame : l1 = before ∧ x = link).
      { clear -Heq Hx Hl1 Hbefore Hlink. revert l1 Heq Hl1.
        induction Hbefore as [|b before Hb _ IH]; intros l1 Heq Hl1.
        - destruct l1 as [|y l1]; simpl in Heq.
          + by injection Heq as ->.
          + injection Heq as -> _.
            apply Forall_cons in Hl1 as [Hy _]. congruence.
        - destruct l1 as [|y l1]; simpl in Heq.
          + injection Heq as <- _. congruence.
          + injection Heq as -> Heq.
            apply Forall_cons in Hl1 as [_ Hl1].
            destruct (IH l1 Heq Hl1) as [-> ->]. done. }
      by destruct Hsame as [_ ->].
    + apply Forall_app in Hfind as [_ Hfind].
      apply Forall_cons in Hfind as [Hno _]. congruence.
  - intros link rest Hlinks Hnone. rewrite Hlinks.
    pose proof (find_first is_relevant (link :: rest)) as Hfind.
    unfold Links.choose.
    destruct (find _ _) as [x|]; [|done].
    destruct Hfind as (l1 & l2 & Heq & Hx & _).
    rewrite Forall_forall in Hnone.
    assert (Hin : x ∈ link :: rest).
    { rewrite Heq. apply elem_of_app. right. apply list_elem_of_here. }
    specialize (Hnone x Hin). congruence.
  - intros u Hu.
    destruct (links_of url anchors) as [links|] eqn:Hlinks; [|done].
    pose proof (find_first is_relevant links) as Hfind.
    unfold Links.choose in Hu.
    assert (Hin : ∃ link, link ∈ links ∧ u = link.1).
    { destruct (find _ _) as [x|].
      - destruct Hfind as (l1 & l2 & Heq & _). injection Hu as <-.
        exists x. split; [|done]. rewrite Heq.
        apply elem_of_app. right. apply list_elem_of_here.
      - destruct links as [|link rest]; [done|].
        injection Hu as <-. exists link. split; [apply list_elem_of_here|done]. }
    destruct Hin as (link & Hin & ->).
    destruct (pdf_links_elem url anchors links link Hlinks Hin)
      as (a & Ha & Hpdf & Hu' & _).
    exists a. split; [done|]. split; [done|]. by rewrite <- Hu'.
Qed.

End LinkFacts.

(** ** The reconstructor, further *)



Lemma pages_coords_no_labels {float : Type} `{EqDecision float}
    (round1 : float → float) (fadd : float → Z → float)
    (lower : pystr → pystr) (i : nat) (pages : list (list (@word float)))
    (cm : gmap pystr (nat * float * float)) :
  pages_coords round1 fadd lower i pages [] cm = Ok cm.
Proof. revert i. induction pages as [|p pages IH]; intros i; simpl; auto. Qed.

(** When the response of the model has no opening brace followed by a
    closing brace, or the literal parser raises on the text between them,
    the mapping is empty, reconstruction gives the empty table, and nothing
    is stamped on the form. *)
Theorem unparsed_response_fills_nothing
    (py_eval : source → frame → option (outcome * frame))
    (raw_user_data : gmap pystr pystr)
    (literal_eval : pystr → option (list (pystr * pyval))) (response : pystr)
    {float : Type} `{EqDecision float} (round1 : float → float)
    (fadd : float → Z → float) (lower : pystr → pystr)
    (pages : list (list (@word float))) :
  (∀ s, Mapper.dict_str (Str.strip response) = Some s →
        literal_eval s = None) →
  Mapper.get_field_mapping_from_llm [] literal_eval response = []
  ∧ reconstruct_user_data py_eval raw_user_data
      (Mapper.get_field_mapping_from_llm [] literal_eval response)
    = Some (Ok ∅)
  ∧ auto_fill_flat_pdf_smart round1 fadd lower pages
      (map_to_list (∅ : gmap pystr pyval))
    = Ok [].
Proof.
  intros Hraise.
  assert (Hempty : Mapper.get_field_mapping_from_llm [] literal_eval response
                   = []).
  { unfold Mapper.get_field_mapping_from_llm.
    destruct (Mapper.dict_str (Str.strip response)) as [s|] eqn:Hs; [|done].
    by rewrite (Hraise s eq_refl). }
  split; [done|]. split.
  - by rewrite Hempty.
  - rewrite map_to_list_empty. unfold auto_fill_flat_pdf_smart.
    change (fst <$> []) with (@nil pystr).
    by rewrite pages_coords_no_labels.
Qed.

Lemma unparsed_response_fills_nothing_witness :
  let le : pystr → option (list (pystr * pyval)) := λ _, None in
  Mapper.get_field_mapping_from_llm [] le (py "{'a': oops}") = []
  ∧ reconstruct_user_data (eval_or (Raises NameError))
      {[ py "First" := py "Ali" ]}
      (Mapper.get_field_mapping_from_llm [] le (py "{'a': oops}"))
    = Some (Ok ∅)
  ∧ auto_fill_flat_pdf_smart id Z.add Str.ascii_lower
      [[ {| text := py "Name:"; x1 := 60%Z; top := 100%Z |} ]]
      (map_to_list (∅ : gmap pystr pyval))
    = Ok [].
Proof.
  intros le.
  exact (unparsed_response_fills_nothing (eval_or (Raises NameError))
           {[ py "First" := py "Ali" ]} le (py "{'a': oops}")
           id Z.add Str.ascii_lower
           [[ {| text := py "Name:"; x1 := 60%Z; top := 100%Z |} ]]
           (λ s _, eq_refl)).
Defined.

(** ** The filler, further *)

Section MoreFillFacts.
Context {float : Type} `{EqDecision float}.
Variable round1 : float → float.
Variable fadd : float → Z → float.
Variable lower : pystr → pystr.

Abbreviation wordF := (@word float).
Abbreviation linesF := (group_lines round1).

(** What one word adds to the lines read so far. *)
Lemma setdefault_append_key (lines : list (float * list wordF))
    (k : float) (w : wordF) (k' : float) :
  k' ∈ fst <$> setdefault_append lines k w → k' = k ∨ k' ∈ fst <$> lines.
Proof.
  induction lines as [|[k0 ws] lines IH]; simpl.
  - intros Hin%list_elem_of_singleton. by left.
  - destruct (decide (k0 = k)); simpl; [by right|].
    intros [->|Hin]%elem_of_cons.
    + right. apply list_elem_of_here.
    + destruct (IH Hin) as [->|Hin']; [by left|].
      right. by apply list_elem_of_further.
Qed.

Lemma setdefault_append_keys (lines : list (float * list wordF))
    (k : float) (w : wordF) :
  NoDup (fst <$> lines) → NoDup (fst <$> setdefault_append lines k w).
Proof.
  induction lines as [|[k0 ws] lines IH]; simpl.
  - intros _. apply NoDup_singleton.
  - intros [Hk0 Hnd]%NoDup_cons.
    destruct (decide (k0 = k)) as [->|Hne]; simpl.
    + by apply NoDup_cons.
    + apply NoDup_cons. split; [|by apply IH].
      intros Hin. by destruct (setdefault_append_key _ _ _ _ Hin).
Qed.

Lemma setdefault_append_elem (lines : list (float * list wordF))
    (k : float) (w : wordF) (k' : float) (ws' : list wordF) (w' : wordF) :
  (k', ws') ∈ setdefault_append lines k w → w' ∈ ws' →
  (k' = k ∧ w' = w) ∨ ∃ ws0, (k', ws0) ∈ lines ∧ w' ∈ ws0.
Proof.
  induction lines as [|[k0 ws] lines IH]; simpl.
  - intros [= -> ->]%list_elem_of_singleton Hw.
    apply list_elem_of_singleton in Hw. by left.
  - destruct (decide (k0 = k)) as [->|Hne].
    + intros [[= -> ->]|Hin]%elem_of_cons Hw.
      * apply elem_of_app in Hw as [Hw|Hw%list_elem_of_singleton];
          [|by left].
        right. exists ws. split; [apply list_elem_of_here|done].
      * right. exists ws'. split; [by apply list_elem_of_further|done].
    + intros [[= -> ->]|Hin]%elem_of_cons Hw.
      * right. exists ws. split; [apply list_elem_of_here|done].
      * destruct (IH Hin Hw) as [?|(ws0 & Hin0 & Hw0)]; [by left|].
        right. exists ws0. split; [by apply list_elem_of_further|done].
Qed.

Lemma setdefault_append_words (lines : list (float * list wordF))
    (k : float) (w : wordF) :
  concat (snd <$> setdefault_append lines k w)
  ≡ₚ concat (snd <$> lines) ++ [w].
Proof.
  induction lines as [|[k0 ws] lines IH]; simpl; [done|].
  destruct (decide (k0 = k)); simpl.
  - rewrite <- !app_assoc. f_equiv. apply Permutation_app_comm.
  - by rewrite IH, app_assoc.
Qed.

(** What the loop over the words keeps, from any lines [acc] that hold
    the words [seen]. *)
Lemma group_lines_from (words : list wordF)
    (acc : list (float * list wordF)) (seen : list wordF) :
  NoDup (fst <$> acc)
  ∧ (∀ k ws w, (k, ws) ∈ acc → w ∈ ws → round1 (top w) = k)
  ∧ concat (snd <$> acc) ≡ₚ seen →
  let lines := foldl (λ lines w,
                 setdefault_append lines (round1 (top w)) w) acc words in
  NoDup (fst <$> lines)
  ∧ (∀ k ws w, (k, ws) ∈ lines → w ∈ ws → round1 (top w) = k)
  ∧ concat (snd <$> lines) ≡ₚ seen ++ words.
Proof.
  revert acc seen.
  induction words as [|w words IH]; simpl; intros acc seen Hacc.
  - by rewrite app_nil_r.
  - destruct Hacc as (Hnd & Hkey & Hperm).
    replace (seen ++ w :: words) with ((seen ++ [w]) ++ words)
      by (by rewrite <- app_assoc).
    apply IH. split; [by apply setdefault_append_keys|]. split.
    + intros k ws w' Hin Hw'.
      destruct (setdefault_append_elem _ _ _ _ _ _ Hin Hw')
        as [[-> ->]|(ws0 & Hin0 & Hw0)]; [done|by eapply Hkey].
    + by rewrite setdefault_append_words, Hperm.
Qed.

Lemma group_lines_words (words : list wordF) :
  concat (snd <$> linesF words) ≡ₚ words.
Proof.
  apply (group_lines_from words [] []). simpl.
  split; [constructor|]. split; [|done].
  intros k ws w Hin. by apply elem_of_nil in Hin.
Qed.

(** The lines of a page: no two have the same key, every word is in the
    line whose key is its rounded top, and the lines together hold the words
    of the page, each as often as the page has it. *)
Theorem lines_partition_words (words : list wordF) :
  NoDup (fst <$> group_lines round1 words)
  ∧ (∀ k ws w, (k, ws) ∈ group_lines round1 words → w ∈ ws →
               round1 (top w) = k)
  ∧ concat (snd <$> group_lines round1 words) ≡ₚ words.
Proof.
  apply (group_lines_from words [] []). simpl.
  split; [constructor|]. split; [|done].
  intros k ws w Hin. by apply elem_of_nil in Hin.
Qed.

Lemma anchor_elem (t : pystr) (ws : list wordF) (w : wordF) :
  anchor lower t ws = Some w → w ∈ ws.
Proof.
  unfold anchor. destruct (find _ ws) as [a|] eqn:Hfind.
  - intros [= <-]. apply list_elem_of_In. by apply find_some in Hfind as [? _].
  - destruct ws as [|w0 ws]; [done|]. intros [= <-]. apply list_elem_of_here.
Qed.

(** A coordinate that is found is anchored on a word of a line that holds
    the label. *)
Lemma locate_anchored (label : pystr) (lines : list (float * list wordF))
    (x y : float) :
  locate fadd lower label lines = Ok (Some (x, y)) →
  ∃ k ws w, (k, ws) ∈ lines ∧ w ∈ ws
            ∧ line_matches lower label ws = true
            ∧ x = fadd (x1 w) 50 ∧ y = top w.
Proof.
  induction lines as [|[k ws] lines IH]; simpl; [done|].
  destruct (line_matches lower label ws) eqn:Hm.
  - destruct (Str.split label) as [|tok toks]; [done|].
    destruct (anchor lower (lower tok) ws) as [w|] eqn:Ha; [|done].
    intros [= <- <-]. exists k, ws, w.
    split; [apply list_elem_of_here|].
    split; [by apply anchor_elem in Ha|done].
  - intros Hloc. destruct (IH Hloc) as (k' & ws' & w & Hin & Hrest).
    exists k', ws', w. split; [by apply list_elem_of_further|done].
Qed.

(** A label found on no line. *)
Lemma locate_unmatched (label : pystr) (lines : list (float * list wordF)) :
  Forall (λ l, line_matches lower label l.2 = false) lines →
  locate fadd lower label lines = Ok None.
Proof.
  intros Hl. rewrite <- (app_nil_r lines).
  by rewrite (locate_skip fadd lower label lines [] Hl).
Qed.

(** What the coordinate map holds after the loop over the pages. *)
Lemma pages_coords_anchored (pre pages : list (list wordF))
    (labels : list pystr) (cm0 cm : gmap pystr (nat * float * float))
    (Q : pystr → nat → float → float → Prop) :
  (∀ l n x y, cm0 !! l = Some (n, x, y) → Q l n x y) →
  (∀ l n words x y,
     l ∈ labels → (pre ++ pages) !! n = Some words →
     locate fadd lower l (linesF words) = Ok (Some (x, y)) → Q l n x y) →
  pages_coords round1 fadd lower (length pre) pages labels cm0 = Ok cm →
  ∀ l n x y, cm !! l = Some (n, x, y) → Q l n x y.
Proof.
  revert pre cm0. induction pages as [|p pages IH]; intros pre cm0 H0 HQ; simpl.
  - by intros [= <-].
  - destruct (page_coords _ _ _ _ _ _) as [cm1|] eqn:Hpage; [|done].
    intros Hrec.
    replace (S (length pre)) with (length (pre ++ [p])) in Hrec
      by (rewrite length_app; simpl; lia).
    apply (IH (pre ++ [p]) cm1); [| |done].
    + intros l n x y. rewrite (page_coords_lookup _ _ _ _ _ _ _ Hpage l).
      unfold page_entry. case_decide as Hin; [|by apply H0].
      destruct (locate fadd lower l (linesF p)) as [[[x' y']|]|] eqn:Hloc;
        [|by apply H0..].
      intros [= <- <- <-]. apply (HQ l (length pre) p x' y'); [done| |done].
      by rewrite lookup_app_r, Nat.sub_diag by lia.
    + intros l n words x y Hin Hn. apply HQ; [done|].
      by rewrite <- app_assoc in Hn.
Qed.

Lemma stamps_inv (user_data : list (pystr * pyval))
    (cm : gmap pystr (nat * float * float)) (st : @stamp float) :
  st ∈ stamps fadd user_data cm →
  ∃ key n x y, (key, value st) ∈ user_data ∧ cm !! key = Some (n, x, y)
               ∧ page_num st = n
               ∧ rect st = (x, y, fadd x 150, fadd y 20)
               ∧ text_at st = (fadd x 2, fadd y 2).
Proof.
  induction user_data as [|[key v] user_data IH]; simpl.
  - by intros ?%elem_of_nil.
  - destruct (cm !! key) as [[[n x] y]|] eqn:Hcm.
    + intros [->|Hin]%elem_of_cons.
      * exists key, n, x, y. simpl. split; [apply list_elem_of_here|done].
      * destruct (IH Hin) as (key' & n' & x' & y' & Hud & Hrest).
        exists key', n', x', y'. split; [by apply list_elem_of_further|done].
    + intros Hin.
      destruct (IH Hin) as (key' & n' & x' & y' & Hud & Hrest).
      exists key', n', x', y'. split; [by apply list_elem_of_further|done].
Qed.

(** Every stamp is for an entry of the user data, and its page number is
    the index of a page that was read: on that page a line holds the label of
    the entry, and the rectangle starts 50 units to the right of the right
    edge of a word of that line, at the top of that word. *)
Theorem stamps_on_pages_at_words (pages : list (list wordF))
    (user_data : list (pystr * pyval)) (sts : list (@stamp float))
    (st : @stamp float) :
  auto_fill_flat_pdf_smart round1 fadd lower pages user_data = Ok sts →
  st ∈ sts →
  ∃ key words k ws w,
    (key, value st) ∈ user_data
    ∧ (page_num st < length pages)%nat
    ∧ pages !! page_num st = Some words
    ∧ (k, ws) ∈ linesF words ∧ line_matches lower key ws = true
    ∧ w ∈ ws ∧ w ∈ words
    ∧ rect st = (fadd (x1 w) 50, top w,
                 fadd (fadd (x1 w) 50) 150, fadd (top w) 20)
    ∧ text_at st = (fadd (fadd (x1 w) 50) 2, fadd (top w) 2).
Proof.
  unfold auto_fill_flat_pdf_smart.
  destruct (pages_coords _ _ _ 0 pages (fst <$> user_data) ∅)
    as [cm|] eqn:Hcm; [|done].
  intros [= <-] Hst.
  destruct (stamps_inv _ _ _ Hst)
    as (key & n & x & y & Hud & Hkey & Hn & Hrect & Htext).
  pose proof (pages_coords_anchored [] pages (fst <$> user_data) ∅ cm
    (λ l n x y, ∃ words k ws w,
       pages !! n = Some words ∧ (k, ws) ∈ linesF words
       ∧ line_matches lower l ws = true ∧ w ∈ ws
       ∧ x = fadd (x1 w) 50 ∧ y = top w)) as Hinv.
  destruct (Hinv ltac:(intros ????; by rewrite lookup_empty)
              ltac:(intros l n' words x' y' _ Hn' Hloc;
                    destruct (locate_anchored _ _ _ _ Hloc)
                      as (k & ws & w & ? & ? & ? & ? & ?);
                    by exists words, k, ws, w)
              Hcm key n x y Hkey)
    as (words & k & ws & w & Hwords & Hline & Hm & Hw & -> & ->).
  exists key, words, k, ws, w. rewrite Hn.
  split; [done|]. split; [by apply lookup_lt_Some in Hwords|].
  split; [done|]. split; [done|]. split; [done|]. split; [done|].
  split; [|done].
  rewrite <- (group_lines_words words). apply list_elem_of_In, in_concat. exists ws.
  split; [|by apply list_elem_of_In].
  apply list_elem_of_In, list_elem_of_fmap. by exists (k, ws).
Qed.

(** The values stamped are values of the user data, in its order, each
    entry at most once. *)
Theorem stamped_values_sublist (pages : list (list wordF))
    (user_data : list (pystr * pyval)) (sts : list (@stamp float)) :
  auto_fill_flat_pdf_smart round1 fadd lower pages user_data = Ok sts →
  (value <$> sts) `sublist_of` (snd <$> user_data).
Proof.
  unfold auto_fill_flat_pdf_smart.
  destruct (pages_coords _ _ _ 0 pages (fst <$> user_data) ∅)
    as [cm|]; [|done].
  intros [= <-]. induction user_data as [|[key v] user_data IH]; simpl.
  - constructor.
  - destruct (cm !! key) as [[[n x] y]|]; simpl.
    + by apply sublist_skip.
    + by apply sublist_cons.
Qed.

Lemma page_coords_drop_label (i : nat) (lines : list (float * list wordF))
    (l1 l2 : list pystr) (label : pystr)
    (cm : gmap pystr (nat * float * float)) :
  locate fadd lower label lines = Ok None →
  page_coords fadd lower i lines (l1 ++ label :: l2) cm
  = page_coords fadd lower i lines (l1 ++ l2) cm.
Proof.
  intros Hloc. revert cm. induction l1 as [|l l1 IH]; intros cm; simpl.
  - by rewrite Hloc.
  - destruct (locate fadd lower l lines) as [[[x y]|]|]; auto.
Qed.

Lemma pages_coords_drop_label (i : nat) (pages : list (list wordF))
    (l1 l2 : list pystr) (label : pystr)
    (cm : gmap pystr (nat * float * float)) :
  Forall (λ q, locate fadd lower label (linesF q) = Ok None) pages →
  pages_coords round1 fadd lower i pages (l1 ++ label :: l2) cm
  = pages_coords round1 fadd lower i pages (l1 ++ l2) cm.
Proof.
  intros Hpages. revert i cm.
  induction Hpages as [|p pages Hp _ IH]; intros i cm; simpl; [done|].
  rewrite (page_coords_drop_label i (linesF p) l1 l2 label cm Hp).
  destruct (page_coords _ _ _ _ _ _); [apply IH|done].
Qed.

Lemma stamps_drop_entry (ud1 ud2 : list (pystr * pyval)) (label : pystr)
    (v : pyval) (cm : gmap pystr (nat * float * float)) :
  cm !! label = None →
  stamps fadd (ud1 ++ (label, v) :: ud2) cm = stamps fadd (ud1 ++ ud2) cm.
Proof.
  intros Hcm. induction ud1 as [|[k' v'] ud1 IH]; simpl.
  - by rewrite Hcm.
  - destruct (cm !! k') as [[[n x] y]|]; by rewrite IH.
Qed.

(** An entry whose label is on no line of any page is passed over: the
    document is stamped as if the entry were not in the user data. *)
Theorem unmatched_label_passed_over (pages : list (list wordF))
    (ud1 ud2 : list (pystr * pyval)) (label : pystr) (v : pyval) :
  Forall (λ words, Forall (λ l, line_matches lower label l.2 = false)
                          (linesF words)) pages →
  auto_fill_flat_pdf_smart round1 fadd lower pages (ud1 ++ (label, v) :: ud2)
  = auto_fill_flat_pdf_smart round1 fadd lower pages (ud1 ++ ud2).
Proof.
  intros Hpages.
  assert (Hloc : Forall (λ q, locate fadd lower label (linesF q) = Ok None)
                        pages).
  { eapply Forall_impl; [exact Hpages|]. intros words.
    apply locate_unmatched. }
  unfold auto_fill_flat_pdf_smart.
  rewrite !fmap_app, fmap_cons. simpl.
  rewrite (pages_coords_drop_label 0 pages _ _ label ∅ Hloc).
  destruct (pages_coords _ _ _ 0 pages _ ∅) as [cm|] eqn:Hcm; [|done].
  f_equal. apply stamps_drop_entry.
  by rewrite (pages_coords_unmatched round1 fadd lower _ _ _ _ _ label
                Hloc Hcm).
Qed.

End MoreFillFacts.

Lemma stamps_on_pages_at_words_witness :
  let pages := [ [ {| text := py "Date:"; x1 := 30%Z; top := 10%Z |} ];
                 [ {| text := py "Your"; x1 := 30%Z; top := 200%Z |};
                   {| text := py "name"; x1 := 70%Z; top := 200%Z |} ] ] in
  let user_data := [(py "Name", VStr (py "Ali Khan"))] in
  let st := {| page_num := 1; rect := (120, 200, 270, 220)%Z;
               text_at := (122, 202)%Z; value := VStr (py "Ali Khan") |} in
  ∃ key words k ws w,
    (key, value st) ∈ user_data
    ∧ (page_num st < length pages)%nat
    ∧ pages !! page_num st = Some words
    ∧ (k, ws) ∈ group_lines id words
    ∧ line_matches Str.ascii_lower key ws = true
    ∧ w ∈ ws ∧ w ∈ words
    ∧ rect st = ((x1 w + 50)%Z, top w, (x1 w + 50 + 150)%Z, (top w + 20)%Z)
    ∧ text_at st = ((x1 w + 50 + 2)%Z, (top w + 2)%Z).
Proof.
  intros pages user_data st.
  refine (stamps_on_pages_at_words id Z.add Str.ascii_lower pages user_data
            [st] st _ _).
  - vm_compute. reflexivity.
  - apply list_elem_of_here.
Defined.

Lemma stamped_values_sublist_witness :
  let pages := [ [ {| text := py "Name:"; x1 := 60%Z; top := 100%Z |} ] ] in
  let user_data := [(py "City", VStr (py "Lahore"));
                    (py "Name", VStr (py "Ali Khan"))] in
  let sts := [ {| page_num := 0; rect := (110, 100, 260, 120)%Z;
                  text_at := (112, 102)%Z; value := VStr (py "Ali Khan") |} ] in
  auto_fill_flat_pdf_smart id Z.add Str.ascii_lower pages user_data = Ok sts
  ∧ (value <$> sts) `sublist_of` (snd <$> user_data).
Proof.
  intros pages user_data sts.
  assert (Hfill : auto_fill_flat_pdf_smart id Z.add Str.ascii_lower pages
                    user_data = Ok sts) by (vm_compute; reflexivity).
  split; [exact Hfill|].
  exact (stamped_values_sublist id Z.add Str.ascii_lower pages user_data sts
           Hfill).
Defined.

Lemma unmatched_label_passed_over_witness :
  let pages := [ [ {| text := py "Name:"; x1 := 60%Z; top := 100%Z |} ] ] in
  auto_fill_flat_pdf_smart id Z.add Str.ascii_lower pages
    ([(py "Name", VStr (py "Ali Khan"))]
     ++ (py "City", VStr (py "Lahore")) :: [])
  = auto_fill_flat_pdf_smart id Z.add Str.ascii_lower pages
      ([(py "Name", VStr (py "Ali Khan"))] ++ []).
Proof.
  intros pages.
  refine (unmatched_label_passed_over id Z.add Str.ascii_lower pages
            [(py "Name", VStr (py "Ali Khan"))] [] (py "City")
            (VStr (py "Lahore")) _).
  repeat constructor.
Defined.

(** ** The matcher, further *)

Lemma lstrip_by_length (p : N → bool) (s : pystr) :
  (length (Str.lstrip_by p s) ≤ length s)%nat.
Proof.
  induction s as [|c s IH]; simpl; [done|]. destruct (p c); simpl; lia.
Qed.

Section MatcherGreedy.
Context {R : Type}.

(** A greedy repetition takes the whole rest when what follows accepts the
    end of the subject. *)
Lemma rep_greedy_full (p : N → bool) (min : nat) (s : pystr) (pos : nat)
    (cs : Re.captures) (k : @Re.cont R) (res : R) :
  Forall (λ c, p c = true) s → (min ≤ length s)%nat →
  k [] (pos + length s)%nat cs = Some res →
  Re.rep p true min s pos cs k = Some res.
Proof.
  intros Hall. revert min pos.
  induction Hall as [|c s Hc Hs IH]; intros min pos Hmin Hk.
  - simpl in Hmin, Hk. destruct min; [|lia]. simpl.
    by rewrite Nat.add_0_r in Hk.
  - simpl in Hmin, Hk.
    replace (pos + S (length s))%nat with (S pos + length s)%nat in Hk by lia.
    destruct min as [|m]; simpl; rewrite Hc.
    + by rewrite (IH 0%nat (S pos) ltac:(lia) Hk).
    + apply IH; [lia|done].
Qed.

(** A greedy repetition without a minimum takes the longest run of the
    class when what follows accepts the subject after that run. *)
Lemma rep_greedy_lstrip (p : N → bool) (s : pystr) (pos : nat)
    (cs : Re.captures) (k : @Re.cont R) (res : R) :
  k (Str.lstrip_by p s)
    (pos + (length s - length (Str.lstrip_by p s)))%nat cs = Some res →
  Re.rep p true 0 s pos cs k = Some res.
Proof.
  revert pos. induction s as [|c s IH]; intros pos; simpl.
  - by rewrite Nat.add_0_r.
  - pose proof (lstrip_by_length p s) as Hlen. destruct (p c); simpl.
    + intros Hk. rewrite (IH (S pos)); [done|].
      by replace (S pos + (length s - length (Str.lstrip_by p s)))%nat
        with (pos + (S (length s) - length (Str.lstrip_by p s)))%nat by lia.
    + by rewrite Nat.sub_diag, Nat.add_0_r.
Qed.

(** A lazy repetition stops at the first place, from its minimum on, where
    what follows matches. *)
Lemma rep_lazy_first (p : N → bool) (min : nat) (t rest : pystr) (pos : nat)
    (cs : Re.captures) (k : @Re.cont R) (res : R) :
  Forall (λ c, p c = true) t → (min ≤ length t)%nat →
  (∀ j, (min ≤ j < length t)%nat →
        k (drop j t ++ rest) (pos + j)%nat cs = None) →
  k rest (pos + length t)%nat cs = Some res →
  Re.rep p false min (t ++ rest) pos cs k = Some res.
Proof.
  intros Hall. revert min pos.
  induction Hall as [|c t Hc Ht IH]; intros min pos Hmin Hnone Hk.
  - simpl in Hmin, Hk. rewrite Nat.add_0_r in Hk.
    destruct min; [|lia]. destruct rest as [|c rest]; simpl; [done|].
    by rewrite Hk.
  - simpl in Hmin, Hk.
    replace (pos + S (length t))%nat with (S pos + length t)%nat in Hk by lia.
    assert (Hnone' : ∀ j, (Nat.pred min ≤ j < length t)%nat →
                   k (drop j t ++ rest) (S pos + j)%nat cs = None).
    { intros j Hj. specialize (Hnone (S j)). simpl in Hnone.
      replace (pos + S j)%nat with (S pos + j)%nat in Hnone by lia.
      apply Hnone. lia. }
    destruct min as [|m]; simpl; rewrite Hc.
    + specialize (Hnone 0%nat). simpl in Hnone. rewrite Nat.add_0_r in Hnone.
      rewrite Hnone by lia. simpl.
      apply IH; [lia|exact Hnone'|done].
    + apply IH; [lia|exact Hnone'|done].
Qed.

End MatcherGreedy.

(** ** The user-data parser, further *)

Lemma lstrip_by_idemp (p : N → bool) (s : pystr) :
  Str.lstrip_by p (Str.lstrip_by p s) = Str.lstrip_by p s.
Proof. apply lstrip_by_unchanged. intros c r. apply lstrip_by_head. Qed.

Lemma strip_by_lstrip (p : N → bool) (s : pystr) :
  Str.strip_by p (Str.lstrip_by p s) = Str.strip_by p s.
Proof. unfold Str.strip_by. by rewrite lstrip_by_idemp. Qed.

(** The colon pattern on a label, a colon and a value. *)
Lemma colon_match (label value : pystr) (c : N) :
  label ≠ [] → Forall (λ c, Parser.key_class c = true) label →
  Parser.colon_class c = true →
  Forall (λ c, Re.dot c = true) value →
  Str.lstrip_by Str.isspace value ≠ [] →
  Re.match_ Parser.colon_re (label ++ c :: value)
  = Some (length (label ++ c :: value),
          [(2%nat, Str.lstrip_by Str.isspace value); (1%nat, label)]).
Proof.
  intros Hne Hlabel Hc Hvalue Hrest.
  unfold Re.match_, Re.match_at, Parser.colon_re. simpl.
  apply rep_lazy_first; [done|destruct label; [done|simpl; lia]| |].
  - intros j Hj.
    destruct (drop j label) as [|d ds] eqn:Hd.
    { apply (f_equal length) in Hd. rewrite length_drop in Hd. simpl in Hd.
      lia. }
    simpl. pose proof (Forall_drop _ j _ Hlabel) as Hdrop.
    rewrite Hd in Hdrop. apply Forall_cons in Hdrop as [Hdk _].
    by rewrite (key_class_not_colon d Hdk).
  - rewrite Hc. apply rep_greedy_lstrip.
    pose proof (lstrip_by_length Str.isspace value) as Hlen.
    apply rep_greedy_full.
    + by apply lstrip_by_Forall.
    + destruct (Str.lstrip_by Str.isspace value); [done|simpl; lia].
    + simpl. f_equal. rewrite length_app. simpl.
      rewrite pair_equal_spec. split; [lia|].
      rewrite Nat.sub_0_r, take_app_length. f_equal. f_equal.
      apply take_ge. lia.
Qed.

(** A line that, with the bullets and the blanks around it removed, reads
    as a label of key-class code points, a colon and a value on the rest of
    the line, is stored under that label with that value, both trimmed. *)
Theorem colon_line_stored (raw label value : pystr) (c : N)
    (data : gmap pystr pystr) :
  Parser.clean_line raw = label ++ c :: value →
  label ≠ [] → Forall (λ c, Parser.key_class c = true) label →
  Parser.colon_class c = true →
  Forall (λ c, c ≠ 10) value → Str.strip value ≠ [] →
  Parser.parse_line (label ++ c :: value)
  = Some (Parser.Colon, (Str.strip label, Str.strip value))
  ∧ Parser.add_line data raw = <[ Str.strip label := Str.strip value ]> data.
Proof.
  intros Hclean Hne Hlabel Hc Hvalue Hstrip.
  assert (Hparse : Parser.parse_line (label ++ c :: value)
            = Some (Parser.Colon, (Str.strip label, Str.strip value))).
  { unfold Parser.parse_line. rewrite (colon_match label value c); try done.
    - unfold Parser.groups_entry. simpl. unfold Str.strip.
      by rewrite strip_by_lstrip.
    - eapply Forall_impl; [exact Hvalue|]. intros d Hd. unfold Re.dot.
      by destruct (N.eqb_spec d 10).
    - intros Hnil. apply Hstrip. unfold Str.strip, Str.strip_by.
      by rewrite Hnil. }
  split; [done|]. unfold Parser.add_line. rewrite Hclean.
  destruct label as [|d label]; [done|]. simpl in Hparse |- *.
  by rewrite Hparse.
Qed.

Lemma colon_line_stored_witness :
  Parser.parse_line (py "Full Name" ++ 58 :: py " Ali Khan")
  = Some (Parser.Colon, (Str.strip (py "Full Name"), Str.strip (py " Ali Khan")))
  ∧ Parser.add_line ∅ ([8226; 32] ++ py "Full Name: Ali Khan  ")
    = <[ Str.strip (py "Full Name") := Str.strip (py " Ali Khan") ]> ∅.
Proof.
  refine (colon_line_stored ([8226; 32] ++ py "Full Name: Ali Khan  ")
            (py "Full Name") (py " Ali Khan") 58 ∅ _ _ _ _ _ _).
  - vm_compute. reflexivity.
  - discriminate.
  - repeat constructor.
  - reflexivity.
  - repeat (constructor; [discriminate|]). constructor.
  - vm_compute. discriminate.
Defined.

(** What a match of either pattern captures: group 1 starts the line,
    group 2 ends it, up to a last line feed, and neither is empty. *)
Lemma colon_match_shape (line : pystr) (e : nat) (cs : Re.captures) :
  Re.match_ Parser.colon_re line = Some (e, cs) →
  ∃ g1 mid g2 tail, line = g1 ++ mid ++ g2 ++ tail ∧ g1 ≠ [] ∧ g2 ≠ []
                    ∧ (tail = [] ∨ tail = [10])
                    ∧ Re.group 1 cs = Some g1 ∧ Re.group 2 cs = Some g2.
Proof.
  unfold Re.match_, Re.match_at, Parser.colon_re. simpl. intros Hm.
  apply rep_inv in Hm as (n & Hn & _ & Hm).
  destruct (drop n line) as [|c s1] eqn:Hd; [done|].
  destruct (Parser.colon_class c); [|done].
  apply rep_inv in Hm as (n2 & _ & _ & Hm).
  apply rep_inv in Hm as (n3 & Hn3 & _ & Hm).
  exists (take n line), (c :: take n2 s1), (take n3 (drop n2 s1)),
         (drop n3 (drop n2 s1)).
  assert (Hline : line = take n line ++ (c :: take n2 s1)
                         ++ take n3 (drop n2 s1) ++ drop n3 (drop n2 s1)).
  { rewrite take_drop. simpl. rewrite take_drop, <- Hd. by rewrite take_drop. }
  assert (Hg1 : take n line ≠ []).
  { destruct line; [simpl in Hn; lia|]. destruct n; [lia|done]. }
  assert (Hg2 : take n3 (drop n2 s1) ≠ []).
  { destruct (drop n2 s1); [simpl in Hn3; lia|]. destruct n3; [lia|done]. }
  assert (Hcs : ∀ p, cs = [(2%nat, take (p + n3 - p) (drop n2 s1));
                           (1%nat, take (0 + n - 0) line)] →
                Re.group 1 cs = Some (take n line)
                ∧ Re.group 2 cs = Some (take n3 (drop n2 s1))).
  { intros p ->. simpl. replace (p + n3 - p)%nat with n3 by lia.
    by rewrite Nat.sub_0_r. }
  destruct (drop n3 (drop n2 s1)) as [|d [|d' tl]] eqn:Htail.
  - injection Hm as <- <-.
    destruct (Hcs _ eq_refl) as [H1 H2]. repeat split; auto.
  - destruct d; try done. repeat (destruct p; try done).
    injection Hm as <- <-.
    destruct (Hcs _ eq_refl) as [H1 H2]. repeat split; auto.
  - destruct d; try done. repeat (destruct p; try done).
Qed.

Lemma dots_match_shape (line : pystr) (e : nat) (cs : Re.captures) :
  Re.match_ Parser.dots_re line = Some (e, cs) →
  ∃ g1 mid g2 tail, line = g1 ++ mid ++ g2 ++ tail ∧ g1 ≠ [] ∧ g2 ≠ []
                    ∧ (tail = [] ∨ tail = [10])
                    ∧ Re.group 1 cs = Some g1 ∧ Re.group 2 cs = Some g2.
Proof.
  unfold Re.match_, Re.match_at, Parser.dots_re. simpl. intros Hm.
  apply rep_inv in Hm as (n & Hn & _ & Hm).
  apply rep_inv in Hm as (m1 & _ & _ & Hm).
  apply rep_inv in Hm as (m2 & _ & _ & Hm).
  apply rep_inv in Hm as (m3 & _ & _ & Hm).
  apply rep_inv in Hm as (n3 & Hn3 & _ & Hm).
  set (s1 := drop n line) in *. set (s2 := drop m1 s1) in *.
  set (s3 := drop m2 s2) in *. set (s4 := drop m3 s3) in *.
  exists (take n line), (take m1 s1 ++ take m2 s2 ++ take m3 s3),
         (take n3 s4), (drop n3 s4).
  assert (Hline : line = take n line
                         ++ (take m1 s1 ++ take m2 s2 ++ take m3 s3)
                         ++ take n3 s4 ++ drop n3 s4).
  { rewrite take_drop. subst s4. rewrite <- !app_assoc, take_drop.
    subst s3. rewrite take_drop. subst s2. rewrite take_drop.
    subst s1. by rewrite take_drop. }
  assert (Hg1 : take n line ≠ []).
  { destruct line; [simpl in Hn; lia|]. destruct n; [lia|done]. }
  assert (Hg2 : take n3 s4 ≠ []).
  { destruct s4; [simpl in Hn3; lia|]. destruct n3; [lia|done]. }
  assert (Hcs : ∀ p, cs = [(2%nat, take (p + n3 - p) s4);
                           (1%nat, take (0 + n - 0) line)] →
                Re.group 1 cs = Some (take n line)
                ∧ Re.group 2 cs = Some (take n3 s4)).
  { intros p ->. simpl. replace (p + n3 - p)%nat with n3 by lia.
    by rewrite Nat.sub_0_r. }
  destruct (drop n3 s4) as [|d [|d' tl]] eqn:Htail.
  - injection Hm as <- <-.
    destruct (Hcs _ eq_refl) as [H1 H2]. repeat split; auto.
  - destruct d; try done. repeat (destruct p; try done).
    injection Hm as <- <-.
    destruct (Hcs _ eq_refl) as [H1 H2]. repeat split; auto.
  - destruct d; try done. repeat (destruct p; try done).
Qed.

Lemma trimmed_strip (s : pystr) : trimmed (Str.strip s).
Proof.
  split; intros c Hc.
  - destruct (Str.strip s) as [|d r] eqn:Hs; [done|]. injection Hc as ->.
    by apply (strip_by_first Str.isspace s c r).
  - destruct (Str.strip s) as [|d r] eqn:Hs using rev_ind; [done|].
    rewrite last_snoc in Hc. injection Hc as ->.
    by apply (strip_by_last Str.isspace s r c).
Qed.

Lemma strip_trimmed (s : pystr) : trimmed s → Str.strip s = s.
Proof.
  intros [Hhead Hlast]. apply strip_by_unchanged.
  - intros c r ->. by apply Hhead.
  - intros r c ->. apply Hlast. by rewrite last_snoc.
Qed.

(** The groups of a match on a trimmed line are not blank. *)
Lemma groups_not_blank (line g1 mid g2 tail : pystr) :
  trimmed line → line = g1 ++ mid ++ g2 ++ tail → g1 ≠ [] → g2 ≠ [] →
  tail = [] ∨ tail = [10] →
  Str.strip g1 ≠ [] ∧ Str.strip g2 ≠ [].
Proof.
  intros [Hhead Hlast] -> Hg1 Hg2 Htail. split.
  - destruct g1 as [|c g1]; [done|].
    apply strip_by_keeps_first, Hhead. done.
  - assert (Hnil : tail = []).
    { destruct Htail as [->| ->]; [done|].
      specialize (Hlast 10). rewrite !app_assoc, last_snoc in Hlast.
      by specialize (Hlast eq_refl). }
    subst tail. rewrite app_nil_r in Hlast.
    destruct g2 as [|c g2 _] using rev_ind; [done|].
    apply strip_by_keeps_last, Hlast. by rewrite !app_assoc, last_snoc.
Qed.

Lemma split_from_tokens (cur s : pystr) :
  Forall (λ c, Str.isspace c = false) cur →
  Forall is_token (Str.split_from cur s).
Proof.
  revert cur. induction s as [|c s IH]; intros cur Hcur; simpl.
  - destruct cur as [|d cur]; [constructor|].
    apply Forall_singleton. split; [|by apply Forall_rev].
    intros Hnil. apply (f_equal length) in Hnil.
    rewrite length_rev in Hnil. done.
  - destruct (Str.isspace c) eqn:Hc.
    + destruct cur as [|d cur]; [by apply IH|].
      constructor; [|by apply IH].
      split; [|by apply Forall_rev].
      intros Hnil. apply (f_equal length) in Hnil.
      rewrite length_rev in Hnil. done.
    + apply IH. by constructor.
Qed.

Lemma join_tokens_trimmed (ws : list pystr) :
  Forall is_token ws → trimmed (Str.join [32] ws).
Proof.
  intros Hws. split.
  - destruct Hws as [|w ws [Hne Hw] Hws]; [done|].
    destruct w as [|d w]; [done|]. apply Forall_cons in Hw as [Hd _].
    destruct ws; simpl; by intros c [= <-].
  - induction Hws as [|w ws [Hne Hw] Hws IH]; [done|].
    destruct ws as [|w' ws].
    + simpl. intros c Hc. rewrite Forall_forall in Hw. apply Hw.
      by apply last_Some_elem_of.
    + change (Str.join [32] (w :: w' :: ws))
        with (w ++ [32] ++ Str.join [32] (w' :: ws)).
      intros c Hc. apply IH. rewrite !last_app in Hc.
      destruct (last (Str.join [32] (w' :: ws))) as [d|] eqn:Hlast; [done|].
      exfalso. apply last_None in Hlast.
      apply Forall_cons in Hws as [[Hne' _] _].
      destruct w' as [|d w']; [done|]. by destruct ws.
Qed.

(** What one trimmed line gives, whatever the strategy. *)
Lemma parse_line_trimmed (line : pystr) (s : Parser.strategy)
    (label value : pystr) :
  trimmed line → Parser.parse_line line = Some (s, (label, value)) →
  label ≠ [] ∧ value ≠ [] ∧ trimmed label ∧ trimmed value.
Proof.
  intros Hline. unfold Parser.parse_line.
  assert (Hgroups : ∀ e cs,
    (∃ g1 mid g2 tail, line = g1 ++ mid ++ g2 ++ tail ∧ g1 ≠ [] ∧ g2 ≠ []
                       ∧ (tail = [] ∨ tail = [10])
                       ∧ Re.group 1 cs = Some g1 ∧ Re.group 2 cs = Some g2) →
    Some (e, Parser.groups_entry cs) = Some (s, (label, value)) →
    label ≠ [] ∧ value ≠ [] ∧ trimmed label ∧ trimmed value).
  { intros e cs (g1 & mid & g2 & tail & Heq & Hg1 & Hg2 & Htail & H1 & H2).
    unfold Parser.groups_entry. rewrite H1, H2. simpl. intros [= _ <- <-].
    destruct (groups_not_blank line g1 mid g2 tail Hline Heq Hg1 Hg2 Htail).
    repeat split; auto using trimmed_strip; apply trimmed_strip. }
  destruct (Re.match_ Parser.colon_re line) as [[e cs]|] eqn:Hcolon.
  { apply Hgroups. by apply (colon_match_shape line e). }
  destruct (Re.match_ Parser.dots_re line) as [[e cs]|] eqn:Hdots.
  { apply Hgroups. by apply (dots_match_shape line e). }
  destruct (Parser.whitespace_split (Str.split line)) as [entry|] eqn:Hws;
    [|done].
  intros [= _ ->]. unfold Parser.whitespace_split, Parser.candidates in Hws.
  destruct (first_split_longest _ _ _ Hws) as (i & _ & Hsplit & Hok & _).
  unfold Parser.acceptable in Hok. apply andb_true_iff in Hok as [Hl Hv].
  apply Nat.ltb_lt in Hl, Hv. simpl in Hl, Hv.
  pose proof (split_from_tokens [] line ltac:(constructor)) as Htok.
  fold (Str.split line) in Htok.
  injection Hsplit as -> ->.
  split; [intros Hnil; rewrite Hnil in Hl; simpl in Hl; lia|].
  split; [intros Hnil; rewrite Hnil in Hv; simpl in Hv; lia|].
  split; apply join_tokens_trimmed; [by apply Forall_take|by apply Forall_drop].
Qed.

Lemma foldl_keeps {A B : Type} (I : B → Prop) (f : B → A → B) (xs : list A) :
  (∀ acc a, a ∈ xs → I acc → I (f acc a)) →
  ∀ acc, I acc → I (foldl f acc xs).
Proof.
  induction xs as [|a xs IH]; simpl; intros Hf acc Hacc; [done|].
  apply IH.
  - intros acc' a' Hin. apply Hf. by apply list_elem_of_further.
  - apply Hf; [apply list_elem_of_here|done].
Qed.

(** No entry of the table has an empty label or an empty value, and
    neither a label nor a value starts or ends with a blank: stripping them
    again changes nothing. *)
Theorem entries_trimmed_not_empty (text label value : pystr) :
  Parser.extract_all_fields_from_text text !! label = Some value →
  label ≠ [] ∧ value ≠ []
  ∧ Str.strip label = label ∧ Str.strip value = value.
Proof.
  intros Hentry.
  cut (label ≠ [] ∧ value ≠ [] ∧ trimmed label ∧ trimmed value).
  { intros (? & ? & ? & ?). auto using strip_trimmed. }
  revert label value Hentry. unfold Parser.extract_all_fields_from_text.
  apply (foldl_keeps (λ data : gmap pystr pystr, ∀ label value,
           data !! label = Some value →
           label ≠ [] ∧ value ≠ [] ∧ trimmed label ∧ trimmed value)).
  - intros data raw _ Hdata label value. unfold Parser.add_line.
    pose proof (trimmed_strip (Str.strip_chars [8226; 32] raw)) as Hclean.
    fold (Parser.clean_line raw) in Hclean.
    destruct (Parser.clean_line raw) as [|c l]; [by apply Hdata|].
    destruct (Parser.parse_line (c :: l)) as [[s [label' value']]|] eqn:Hparse;
      [|by apply Hdata].
    destruct (decide (label' = label)) as [->|Hne].
    + rewrite lookup_insert_eq. intros [= ->].
      by apply (parse_line_trimmed (c :: l) s).
    + rewrite lookup_insert_ne by done. apply Hdata.
  - intros label value. by rewrite lookup_empty.
Qed.

Lemma entries_trimmed_not_empty_witness :
  let text := py "Name: Ali Khan" ++ [10] ++ py "City ..... Lahore " in
  Parser.extract_all_fields_from_text text !! py "City" = Some (py "Lahore")
  ∧ py "City" ≠ [] ∧ py "Lahore" ≠ []
  ∧ Str.strip (py "City") = py "City" ∧ Str.strip (py "Lahore") = py "Lahore".
Proof.
  intros text.
  assert (Hentry : Parser.extract_all_fields_from_text text !! py "City"
                   = Some (py "Lahore")) by (vm_compute; reflexivity).
  split; [exact Hentry|].
  exact (entries_trimmed_not_empty text (py "City") (py "Lahore") Hentry).
Defined.

(** ** Tables filled line by line *)

(** A table filled by a loop whose step either leaves a key as it is or
    sets it: the value of a key is the one set by the last step that sets
    it. *)
Lemma foldl_last_set {A V : Type} (g : gmap pystr V → A → gmap pystr V)
    (h : A → pystr → option V) (xs : list A) (d0 : gmap pystr V)
    (k : pystr) (v : V) :
  (∀ d a, g d a !! k = match h a k with Some w => Some w | None => d !! k end) →
  foldl g d0 xs !! k = Some v
  ↔ (∃ l1 a l2, xs = l1 ++ a :: l2 ∧ h a k = Some v
                ∧ Forall (λ b, h b k = None) l2)
    ∨ (d0 !! k = Some v ∧ Forall (λ b, h b k = None) xs).
Proof.
  intros Hg. induction xs as [|a xs IH] using rev_ind.
  - simpl. split.
    + intros Hd. right. by split.
    + intros [(l1 & a & l2 & Heq & _)|[Hd _]]; [by destruct l1|done].
  - rewrite foldl_app. simpl. rewrite Hg.
    destruct (h a k) as [w|] eqn:Ha.
    + split.
      * intros [= ->]. left. exists xs, a, []. by repeat split.
      * intros [(l1 & b & l2 & Heq & Hb & Hl2)|[_ Hall]].
        -- destruct l2 as [|c l2 _] using rev_ind.
           ++ apply app_inj_tail in Heq as [_ ->]. congruence.
           ++ rewrite app_comm_cons, app_assoc in Heq.
              apply app_inj_tail in Heq as [_ ->].
              apply Forall_app in Hl2 as [_ Hc].
              rewrite Forall_singleton in Hc. congruence.
        -- apply Forall_app in Hall as [_ Hc].
           rewrite Forall_singleton in Hc. congruence.
    + rewrite IH. split.
      * intros [(l1 & b & l2 & -> & Hb & Hl2)|[Hd Hall]].
        -- left. exists l1, b, (l2 ++ [a]). rewrite <- app_assoc.
           repeat split; [done|]. apply Forall_app. split; [done|].
           by apply Forall_singleton.
        -- right. split; [done|]. apply Forall_app. split; [done|].
           by apply Forall_singleton.
      * intros [(l1 & b & l2 & Heq & Hb & Hl2)|[Hd Hall]].
        -- destruct l2 as [|c l2 _] using rev_ind.
           ++ apply app_inj_tail in Heq as [_ ->]. congruence.
           ++ rewrite app_comm_cons, app_assoc in Heq.
              apply app_inj_tail in Heq as [-> ->].
              apply Forall_app in Hl2 as [Hl2 _].
              left. by exists l1, b, l2.
        -- apply Forall_app in Hall as [Hall _]. by right.
Qed.

Lemma add_line_entry (data : gmap pystr pystr) (raw : pystr) :
  Parser.add_line data raw
  = match Lines.line_entry raw with
    | Some (label, value) => <[ label := value ]> data
    | None => data
    end.
Proof.
  unfold Parser.add_line, Lines.line_entry.
  destruct (Parser.clean_line raw) as [|c l]; [done|].
  by destruct (Parser.parse_line (c :: l)) as [[s [label value]]|].
Qed.

(** A label has the value of the last line that gives an entry under it:
    a later line with the same label overrides an earlier one, and a label is
    in the table exactly when some line gives it. *)
Theorem later_line_overrides (text label value : pystr) :
  Parser.extract_all_fields_from_text text !! label = Some value
  ↔ ∃ before line after,
      Str.splitlines text = before ++ line :: after
      ∧ Lines.line_entry line = Some (label, value)
      ∧ Forall (λ l, fst <$> Lines.line_entry l ≠ Some label) after.
Proof.
  unfold Parser.extract_all_fields_from_text.
  rewrite (foldl_last_set Parser.add_line
             (λ raw k, match Lines.line_entry raw with
                       | Some (l, v) => if decide (l = k) then Some v else None
                       | None => None
                       end)).
  - rewrite lookup_empty. split.
    + intros [(l1 & a & l2 & Heq & Ha & Hl2)|[? _]]; [|done].
      exists l1, a, l2. split; [done|].
      destruct (Lines.line_entry a) as [[l v]|]; [|done].
      destruct (decide (l = label)) as [->|]; [|done]. injection Ha as ->.
      split; [done|]. eapply Forall_impl; [exact Hl2|].
      intros b. simpl. destruct (Lines.line_entry b) as [[l v]|]; [|done].
      simpl. destruct (decide (l = label)); [done|]. by intros _ [= ?].
    + intros (l1 & a & l2 & Heq & Ha & Hl2). left.
      exists l1, a, l2. split; [done|]. rewrite Ha.
      rewrite decide_True by done. split; [done|].
      eapply Forall_impl; [exact Hl2|].
      intros b. simpl. destruct (Lines.line_entry b) as [[l v]|]; [|done].
      simpl. destruct (decide (l = label)); [|done]. intros Hb. by exfalso; apply Hb; f_equal.
  - intros d a. rewrite add_line_entry.
    destruct (Lines.line_entry a) as [[l v]|]; [|done].
    destruct (decide (l = label)) as [->|Hne].
    + by rewrite lookup_insert_eq.
    + by rewrite lookup_insert_ne.
Qed.

(** ** The lines of a text *)

(** A line boundary ends the current line; the next line starts after it,
    or after the line feed that follows a carriage return. *)
Lemma splitlines_from_step (cur : pystr) (c : N) (s : pystr) :
  Str.is_linebreak c = true →
  ∃ s2, Str.splitlines_from cur (c :: s)
        = rev cur :: Str.splitlines_from [] s2
        ∧ (s2 = s ∨ ∃ d, s = d :: s2).
Proof.
  intros Hc. simpl. rewrite Hc.
  destruct (decide (c = 13)) as [->|Hne].
  - destruct s as [|d s]; [by exists []; split; [|left]|].
    destruct (decide (d = 10)) as [->|Hd].
    + exists s. split; [done|]. right. by exists 10.
    + exists (d :: s). split; [|by left].
      destruct d as [|p]; [done|]. repeat (destruct p as [p|p|]; try done).
  - exists s. split; [|by left].
    destruct c as [|p]; [done|]. repeat (destruct p as [p|p|]; try done).
Qed.

Lemma elem_of_rev (c : N) (l : pystr) : c ∈ rev l → c ∈ l.
Proof. rewrite !list_elem_of_In. apply in_rev. Qed.

(** Every code point of a line is one of the text. *)
Lemma splitlines_from_elem (n : nat) (cur s line : pystr) (c : N) :
  (length s ≤ n)%nat →
  line ∈ Str.splitlines_from cur s → c ∈ line → c ∈ cur ∨ c ∈ s.
Proof.
  revert cur s. induction n as [|n IH]; intros cur s Hn.
  - destruct s; [|simpl in Hn; lia]. simpl.
    destruct cur as [|d cur]; [by intros ?%elem_of_nil|].
    intros ->%list_elem_of_singleton Hc. left. by apply elem_of_rev in Hc.
  - destruct s as [|d s].
    { simpl. destruct cur as [|d cur]; [by intros ?%elem_of_nil|].
      intros ->%list_elem_of_singleton Hc. left.
      by apply elem_of_rev in Hc. }
    simpl in Hn. destruct (Str.is_linebreak d) eqn:Hd.
    + destruct (splitlines_from_step cur d s Hd) as (s2 & -> & Hs2).
      intros [->|Hin]%elem_of_cons Hc.
      * left. by apply elem_of_rev in Hc.
      * right. apply list_elem_of_further.
        assert (Hlen : (length s2 ≤ n)%nat).
        { destruct Hs2 as [->|[d' ->]]; simpl in *; lia. }
        destruct (IH [] s2 Hlen Hin Hc) as [?%elem_of_nil|Hc']; [done|].
        destruct Hs2 as [->|[d' ->]]; [done|by apply list_elem_of_further].
    + simpl. rewrite Hd. intros Hin Hc.
      destruct (IH (d :: cur) s ltac:(lia) Hin Hc) as [Hc'|Hc'].
      * apply elem_of_cons in Hc' as [->|Hc']; [right; apply list_elem_of_here|].
        by left.
      * right. by apply list_elem_of_further.
Qed.

Lemma splitlines_elem (s line : pystr) (c : N) :
  line ∈ Str.splitlines s → c ∈ line → c ∈ s.
Proof.
  intros Hin Hc.
  destruct (splitlines_from_elem (length s) [] s line c ltac:(lia) Hin Hc)
    as [?%elem_of_nil|?]; done.
Qed.

(** ** The slot enumerator, further *)

(** What [findall] returns is group 1 of a match at some place of the
    line. *)
Lemma findall_from_suffix (r : Re.regex) (s : pystr) (pos skip : nat)
    (m : pystr) :
  m ∈ Re.findall_from r s pos skip →
  ∃ pre s' e cs, s = pre ++ s'
                 ∧ Re.match_at r s' (pos + length pre) = Some (e, cs)
                 ∧ m = default [] (Re.group 1 cs).
Proof.
  revert pos skip. induction s as [|c s IH]; intros pos skip; simpl.
  - destruct skip; [|by intros ?%elem_of_nil].
    destruct (Re.match_at r [] pos) as [[e cs]|] eqn:Hm;
      [|by intros ?%elem_of_nil].
    intros ->%list_elem_of_singleton. exists [], [], e, cs. simpl.
    by rewrite Nat.add_0_r.
  - assert (Hlater : ∀ skip', m ∈ Re.findall_from r s (S pos) skip' →
              ∃ pre s' e cs, c :: s = pre ++ s'
                ∧ Re.match_at r s' (pos + length pre) = Some (e, cs)
                ∧ m = default [] (Re.group 1 cs)).
    { intros skip' Hin.
      destruct (IH _ _ Hin) as (pre & s' & e & cs & -> & Hm & ->).
      exists (c :: pre), s', e, cs. simpl.
      by replace (pos + S (length pre))%nat with (S pos + length pre)%nat
        by lia. }
    destruct skip; [|by apply Hlater].
    destruct (Re.match_at r (c :: s) pos) as [[e cs]|] eqn:Hm;
      [|by apply Hlater].
    intros [->|Hin]%elem_of_cons; [|by apply (Hlater _ Hin)].
    exists [], (c :: s), e, cs. simpl. by rewrite Nat.add_0_r.
Qed.

(** The ordinal before a label is a part of the line. *)
Lemma ordinal_suffix {R : Type} (nd : N → bool) (s : pystr) (pos : nat)
    (cs : Re.captures) (k : @Re.cont R) (res : R) :
  Re.rmatch (Re.cat [ Re.Rep (Labels.digit nd) 1 true; Re.Chr (Re.chr 46);
                      Re.Rep Str.isspace 0 true ]) s pos cs k = Some res →
  ∃ a s1 p1, s = a ++ s1 ∧ k s1 p1 cs = Some res.
Proof.
  simpl. intros Hm.
  apply rep_inv in Hm as (n & _ & _ & Hm).
  destruct (drop n s) as [|c s1] eqn:Hd; [done|].
  destruct (Re.chr 46 c); [|done].
  apply rep_inv in Hm as (n' & _ & _ & Hm).
  exists (take n s ++ c :: take n' s1), (drop n' s1), (S (pos + n) + n')%nat.
  split; [|done].
  rewrite <- app_assoc. simpl. by rewrite take_drop, <- Hd, take_drop.
Qed.

(** Group 1 of a match of the label pattern stands in the subject, directly
    before a colon. *)
Lemma label_match_text (nd : N → bool) (s : pystr) (pos e : nat)
    (cs : Re.captures) :
  Re.match_at (Labels.label_re nd) s pos = Some (e, cs) →
  ∃ a t b, s = a ++ t ++ 58 :: b ∧ Re.group 1 cs = Some t.
Proof.
  unfold Re.match_at, Labels.label_re.
  assert (Hgroup : ∀ s1 p1,
    Re.rmatch (Re.cat [ Re.Group 1 (Re.Rep Labels.label_class 1 true);
                        Re.Chr (Re.chr 58) ]) s1 p1 []
      (λ _ p c, Some (p, c)) = Some (e, cs) →
    ∃ t b, s1 = t ++ 58 :: b ∧ Re.group 1 cs = Some t).
  { intros s1 p1. simpl. intros Hm.
    apply rep_inv in Hm as (n & Hn & Hall & Hm).
    destruct (drop n s1) as [|c s2] eqn:Hd; [done|].
    unfold Re.chr in Hm. destruct (N.eqb_spec c 58) as [->|]; [|done].
    injection Hm as <- <-.
    exists (take n s1), s2. rewrite <- Hd, take_drop. split; [done|].
    simpl. by replace (p1 + n - p1)%nat with n by lia. }
  intros Hm.
  change (Re.orelse
            (Re.rmatch (Re.cat [ Re.Rep (Labels.digit nd) 1 true;
                                 Re.Chr (Re.chr 46);
                                 Re.Rep Str.isspace 0 true ]) s pos []
               (λ s1 p1 c1,
                  Re.rmatch (Re.cat [ Re.Group 1
                                        (Re.Rep Labels.label_class 1 true);
                                      Re.Chr (Re.chr 58) ]) s1 p1 c1
                    (λ _ p c, Some (p, c))))
            (λ _, Re.rmatch (Re.cat [ Re.Group 1
                                        (Re.Rep Labels.label_class 1 true);
                                      Re.Chr (Re.chr 58) ]) s pos []
                    (λ _ p c, Some (p, c)))
          = Some (e, cs)) in Hm.
  unfold Re.orelse in Hm.
  destruct (Re.rmatch (Re.cat [ Re.Rep _ _ _; _; _ ]) s pos [] _)
    as [r|] eqn:Hord.
  - injection Hm as ->.
    apply ordinal_suffix in Hord as (a & s1 & p1 & -> & Hord).
    destruct (Hgroup s1 p1 Hord) as (t & b & -> & Ht). by exists a, t, b.
  - destruct (Hgroup s pos Hm) as (t & b & -> & Ht). by exists [], t, b.
Qed.

Section LabelOrigin.
Variable nd : N → bool.
Variable pages : list (option pystr).

(** Where a label comes from. *)
Let from_line (l : pystr) : Prop :=
  ∃ page line a t b,
    page ∈ pages ∧ line ∈ Str.splitlines (default [] page)
    ∧ line = a ++ t ++ 58 :: b ∧ l = Str.strip t.

Lemma label_set_from_line (done_pages : list (option pystr)) (l : pystr) :
  done_pages ⊆ pages →
  l ∈ Labels.label_set nd done_pages → from_line l.
Proof.
  intros Hsub. revert l. unfold Labels.label_set.
  apply (foldl_keeps (λ acc : gset pystr, ∀ x, x ∈ acc → from_line x));
    [|set_solver].
  intros acc page Hpage Hacc. unfold Labels.add_page.
  apply (foldl_keeps (λ acc : gset pystr, ∀ x, x ∈ acc → from_line x));
    [|done].
  clear acc Hacc. intros acc line Hline Hacc. unfold Labels.add_line.
  apply (foldl_keeps (λ acc : gset pystr, ∀ x, x ∈ acc → from_line x));
    [|done].
  clear acc Hacc. intros acc m Hm Hacc x. unfold Labels.add_match.
  destruct (1 <? length (Str.strip m))%nat; [|by apply Hacc].
  rewrite elem_of_union, elem_of_singleton. intros [->|Hx]; [|by apply Hacc].
  apply findall_from_suffix in Hm as (pre & s' & e & cs & Hs & Hmatch & ->).
  apply label_match_text in Hmatch as (a & t & b & -> & ->). simpl.
  exists page, line, (pre ++ a), t, b.
  split; [by apply Hsub|]. split; [done|]. split; [|done].
  by rewrite Hs, <- app_assoc.
Qed.

(** Every label returned stands in a line of a page directly before a
    colon, up to the blanks that are stripped from it; so the pages of a
    document that holds no colon give no label at all. *)
Theorem labels_stand_before_colon :
  (∀ l, l ∈ Labels.extract_labels_from_text nd pages →
        ∃ page line a t b,
          page ∈ pages ∧ line ∈ Str.splitlines (default [] page)
          ∧ line = a ++ t ++ 58 :: b ∧ l = Str.strip t)
  ∧ (Forall (λ page, 58 ∉ default [] page) pages →
     Labels.extract_labels_from_text nd pages = []).
Proof.
  assert (Hfrom : ∀ l, l ∈ Labels.extract_labels_from_text nd pages →
                       from_line l).
  { intros l Hl. apply (label_set_from_line pages); [done|].
    unfold Labels.extract_labels_from_text in Hl.
    by apply elem_of_elements in Hl. }
  split; [exact Hfrom|].
  intros Hno.
  destruct (Labels.extract_labels_from_text nd pages) as [|l ls] eqn:Hl;
    [done|].
  destruct (Hfrom l ltac:(apply list_elem_of_here))
    as (page & line & a & t & b & Hpage & Hline & Heq & _).
  rewrite Forall_forall in Hno. exfalso. apply (Hno page Hpage).
  apply (splitlines_elem _ line); [done|].
  rewrite Heq, !elem_of_app. right. right. apply list_elem_of_here.
Qed.

End LabelOrigin.

(** ** User data for interactive forms *)

Section InfoFacts.
Variable fold_eq : N → N → bool.

Abbreviation value_of := (Info.field_value fold_eq).

(** The inner loop over the field names, seen from one key. *)
Lemma add_fields_lookup (line : pystr) (fields : list pystr)
    (data : gmap pystr pystr) (k : pystr) :
  foldl (Info.add_field fold_eq line) data fields !! k
  = match (if decide (k ∈ fields) then value_of k line else None) with
    | Some w => Some w
    | None => data !! k
    end.
Proof.
  revert data. induction fields as [|f fields IH]; intros data; simpl.
  - done.
  - rewrite IH. unfold Info.add_field.
    destruct (decide (k ∈ fields)) as [Hin|Hnin].
    + rewrite (decide_True (P := k ∈ f :: fields))
        by (by apply list_elem_of_further).
      destruct (value_of k line) as [w|] eqn:Hk; [done|].
      destruct (decide (f = k)) as [->|Hne].
      * by rewrite Hk.
      * destruct (value_of f line); [|done]. by rewrite lookup_insert_ne.
    + destruct (decide (f = k)) as [->|Hne].
      * rewrite (decide_True (P := k ∈ k :: fields))
          by apply list_elem_of_here.
        destruct (value_of k line) as [w|]; [|done].
        by rewrite lookup_insert_eq.
      * rewrite (decide_False (P := k ∈ f :: fields)).
        -- destruct (value_of f line); [|done]. by rewrite lookup_insert_ne.
        -- intros [->|?]%elem_of_cons; done.
Qed.

(** A field has a value exactly when it is one of the field names and
    some line matches its pattern, and the value is the one of the last such
    line; the names that were not asked for are never keys. *)
Theorem last_matching_line_gives_value (text : pystr)
    (field_names : list pystr) (field v : pystr) :
  Info.extract_info_from_text fold_eq text field_names !! field = Some v
  ↔ field ∈ field_names
    ∧ ∃ before line after,
        Str.splitlines text = before ++ line :: after
        ∧ value_of field line = Some v
        ∧ Forall (λ l, value_of field l = None) after.
Proof.
  unfold Info.extract_info_from_text.
  rewrite (foldl_last_set
             (λ data line, foldl (Info.add_field fold_eq line) data field_names)
             (λ line k, if decide (k ∈ field_names) then value_of k line
                        else None));
    [|intros d a; apply add_fields_lookup].
  rewrite lookup_empty. destruct (decide (field ∈ field_names)) as [Hin|Hnin].
  - split.
    + intros [(l1 & a & l2 & Heq & Ha & Hl2)|[? _]]; [|done].
      split; [done|]. by exists l1, a, l2.
    + intros [_ (l1 & a & l2 & Heq & Ha & Hl2)]. left. by exists l1, a, l2.
  - split.
    + intros [(l1 & a & l2 & Heq & Ha & Hl2)|[? _]]; done.
    + by intros [? _].
Qed.

(** The matcher on the literal code points of a field name. *)
Lemma field_name_match {R : Type} (field name : pystr) (rs : list Re.regex)
    (s : pystr) (pos : nat) (cs : Re.captures) (k : @Re.cont R) :
  Forall2 (λ a b, Info.ci fold_eq a b = true) field name →
  Re.rmatch (Re.cat (((λ c, Re.Chr (Info.ci fold_eq c)) <$> field) ++ rs))
    (name ++ s) pos cs k
  = Re.rmatch (Re.cat rs) s (pos + length name)%nat cs k.
Proof.
  intros Hname. revert pos.
  induction Hname as [|a b field name Hab _ IH]; intros pos.
  - simpl. by rewrite Nat.add_0_r.
  - assert (Hcons : ∀ r rest s0 p0,
              Re.rmatch (Re.cat (r :: rest)) s0 p0 cs k
              = Re.rmatch r s0 p0 cs
                  (λ s1 p1 c1, Re.rmatch (Re.cat rest) s1 p1 c1 k)).
    { intros r rest s0 p0. by destruct rest. }
    rewrite fmap_cons, <- app_comm_cons, Hcons. simpl. rewrite Hab.
    rewrite IH. f_equal. lia.
Qed.

(** A line that starts with the field name, in any case of its letters,
    followed by blanks or none, a colon and the rest of the line, gives the
    field the rest of the line, stripped. *)
Theorem field_line_value (field name blanks rest : pystr) :
  Forall2 (λ a b, Info.ci fold_eq a b = true) field name →
  Forall (λ c, Str.isspace c = true) blanks →
  Forall (λ c, c ≠ 10) rest →
  value_of field (name ++ blanks ++ 58 :: rest) = Some (Str.strip rest).
Proof.
  intros Hname Hblanks Hrest.
  unfold Info.field_value, Re.search, Info.field_re.
  assert (Hmatch :
    Re.match_at
      (Re.cat (((λ c, Re.Chr (Info.ci fold_eq c)) <$> field)
               ++ [ Re.Rep Str.isspace 0 true; Re.Chr (Re.chr 58);
                    Re.Rep Str.isspace 0 true;
                    Re.Group 1 (Re.Rep Re.dot 0 true) ]))
      (name ++ blanks ++ 58 :: rest) 0
    = Some (length (name ++ blanks ++ 58 :: rest),
            [(1%nat, Str.lstrip_by Str.isspace rest)])).
  { unfold Re.match_at. rewrite (field_name_match field name _ _ _ _ _ Hname).
    simpl. apply rep_greedy_lstrip.
    assert (Hl : Str.lstrip_by Str.isspace (blanks ++ 58 :: rest)
                 = 58 :: rest).
    { clear -Hblanks. induction Hblanks as [|c bl Hc _ IH]; simpl; [done|].
      by rewrite Hc. }
    rewrite Hl. simpl. apply rep_greedy_lstrip.
    pose proof (lstrip_by_length Str.isspace rest) as Hlen.
    apply rep_greedy_full.
    - apply lstrip_by_Forall. eapply Forall_impl; [exact Hrest|].
      intros d Hd. unfold Re.dot. by destruct (N.eqb_spec d 10).
    - lia.
    - f_equal. rewrite !length_app. simpl. rewrite pair_equal_spec.
      split; [lia|]. f_equal. f_equal. apply take_ge. lia. }
  destruct (name ++ blanks ++ 58 :: rest) as [|c l] eqn:Hline.
  - by destruct name, blanks.
  - simpl. unfold Re.match_at in Hmatch |- *. rewrite Hmatch. simpl.
    unfold Str.strip. by rewrite strip_by_lstrip.
Qed.

End InfoFacts.

Lemma field_line_value_witness :
  Info.field_value (λ _ _, false) (py "name") (py "NAME" ++ [32] ++ 58 :: py " Ali Khan ")
  = Some (Str.strip (py " Ali Khan ")).
Proof.
  refine (field_line_value (λ _ _, false) (py "name") (py "NAME") [32]
            (py " Ali Khan ") _ _ _).
  - repeat constructor.
  - repeat constructor.
  - repeat (constructor; [discriminate|]). constructor.
Defined.

(** ** The dotted-leader strategy *)

Section MatcherFails.
Context {R : Type}.

(** A repetition fails when what follows fails after every run of the class
    it can take. *)
Lemma rep_none (p : N → bool) (greedy : bool) (min : nat) (s : pystr)
    (pos : nat) (cs : Re.captures) (k : @Re.cont R) :
  (∀ n, (min ≤ n ≤ length s)%nat → Forall (λ c, p c = true) (take n s) →
        k (drop n s) (pos + n)%nat cs = None) →
  Re.rep p greedy min s pos cs k = None.
Proof.
  intros Hnone. destruct (Re.rep p greedy min s pos cs k) as [res|] eqn:Hr;
    [|done].
  apply rep_inv in Hr as (n & Hn & Hall & Hk). by rewrite Hnone in Hk.
Qed.

(** A greedy repetition takes a run of the class that ends before a code
    point outside the class, when what follows accepts the rest. *)
Lemma rep_greedy_prefix (p : N → bool) (min : nat) (t rest : pystr)
    (pos : nat) (cs : Re.captures) (k : @Re.cont R) (res : R) :
  Forall (λ c, p c = true) t → (min ≤ length t)%nat →
  (∀ c, head rest = Some c → p c = false) →
  k rest (pos + length t)%nat cs = Some res →
  Re.rep p true min (t ++ rest) pos cs k = Some res.
Proof.
  intros Hall. revert min pos.
  induction Hall as [|c t Hc Ht IH]; intros min pos Hmin Hhead Hk.
  - simpl in Hmin, Hk. rewrite Nat.add_0_r in Hk. destruct min; [|lia].
    destruct rest as [|c rest]; simpl; [done|].
    by rewrite (Hhead c eq_refl).
  - simpl in Hmin, Hk.
    replace (pos + S (length t))%nat with (S pos + length t)%nat in Hk by lia.
    destruct min as [|m]; simpl; rewrite Hc.
    + by rewrite (IH 0%nat (S pos) ltac:(lia) Hhead Hk).
    + apply IH; [lia|done|done].
Qed.

End MatcherFails.

Lemma space_not_colon (c : N) :
  Str.isspace c = true → Parser.colon_class c = false.
Proof.
  unfold Parser.colon_class. intros Hk.
  destruct (N.eqb_spec c 58) as [->|_]; [by vm_compute in Hk|].
  destruct (N.eqb_spec c 65306) as [->|_]; [by vm_compute in Hk|done].
Qed.

Lemma leader_not_colon (c : N) :
  Parser.leader_class c = true → Parser.colon_class c = false.
Proof.
  unfold Parser.colon_class. intros Hk.
  destruct (N.eqb_spec c 58) as [->|_]; [by vm_compute in Hk|].
  destruct (N.eqb_spec c 65306) as [->|_]; [by vm_compute in Hk|done].
Qed.

Lemma leader_not_space (c : N) :
  Parser.leader_class c = true → Str.isspace c = false.
Proof.
  unfold Parser.leader_class. intros Hk.
  apply orb_true_iff in Hk as [Hk|Hk]; apply N.eqb_eq in Hk; by subst.
Qed.

(** The colon pattern needs a colon. *)
Lemma colon_no_match (line : pystr) :
  Forall (λ c, Parser.colon_class c = false) line →
  Re.match_ Parser.colon_re line = None.
Proof.
  intros Hline. unfold Re.match_, Re.match_at, Parser.colon_re. simpl.
  apply rep_none. intros n Hn _.
  destruct (drop n line) as [|c s1] eqn:Hd; [done|].
  pose proof (Forall_drop _ n _ Hline) as Hdrop. rewrite Hd in Hdrop.
  apply Forall_cons in Hdrop as [Hc _]. by rewrite Hc.
Qed.

(** After blanks, a label that holds no leader and does not end with a
    blank goes on with a code point that is no leader. *)
Lemma label_rest_no_leader (u rest : pystr) (n : nat) :
  u ≠ [] → Forall (λ c, Parser.leader_class c = false) u →
  (∀ c, last u = Some c → Str.isspace c = false) →
  Forall (λ c, Str.isspace c = true) (take n (u ++ rest)) →
  ∃ d ds, drop n (u ++ rest) = d :: ds ∧ Parser.leader_class d = false.
Proof.
  intros Hne Hu Hlast Htake.
  assert (Hn : (n < length u)%nat).
  { destruct (Nat.lt_ge_cases n (length u)) as [?|Hge]; [done|]. exfalso.
    destruct u as [|c u _] using rev_ind; [done|].
    specialize (Hlast c). rewrite last_snoc in Hlast.
    specialize (Hlast eq_refl).
    rewrite take_app_ge in Htake by done.
    apply Forall_app in Htake as [Htake _].
    apply Forall_app in Htake as [_ Hc]. rewrite Forall_singleton in Hc.
    congruence. }
  rewrite drop_app_le by lia.
  destruct (drop n u) as [|d ds] eqn:Hd.
  { apply (f_equal length) in Hd. rewrite length_drop in Hd. simpl in Hd.
    lia. }
  exists d, (ds ++ rest). split; [done|].
  pose proof (Forall_drop _ n _ Hu) as Hdrop. rewrite Hd in Hdrop.
  by apply Forall_cons in Hdrop as [? _].
Qed.

(** The dotted-leader pattern on a label, blanks, leaders and a value. *)
Lemma dots_match (label blanks leaders value : pystr) :
  label ≠ [] → Forall (λ c, Parser.key_class c = true) label →
  Forall (λ c, Parser.leader_class c = false) label →
  (∀ c, last label = Some c → Str.isspace c = false) →
  Forall (λ c, Str.isspace c = true) blanks →
  Forall (λ c, Parser.leader_class c = true) leaders →
  (2 ≤ length leaders)%nat →
  (∀ c, head value = Some c → Parser.leader_class c = false) →
  Forall (λ c, Re.dot c = true) value →
  Str.lstrip_by Str.isspace value ≠ [] →
  ∃ e, Re.match_ Parser.dots_re (label ++ blanks ++ leaders ++ value)
       = Some (e, [(2%nat, Str.lstrip_by Str.isspace value);
                   (1%nat, label)]).
Proof.
  intros Hne Hkey Hnl Hlast Hblanks Hleaders Hlen Hhead Hvalue Hrest.
  exists (length (label ++ blanks ++ leaders ++ value)).
  unfold Re.match_, Re.match_at, Parser.dots_re. simpl.
  apply rep_lazy_first; [done|destruct label; [done|simpl; lia]| |].
  - intros j Hj. apply rep_none. intros n _ Hspaces.
    assert (Hu : drop j label ≠ []).
    { intros Hnil. apply (f_equal length) in Hnil.
      rewrite length_drop in Hnil. simpl in Hnil. lia. }
    assert (Hulast : ∀ c, last (drop j label) = Some c →
                          Str.isspace c = false).
    { intros c Hc. apply Hlast. rewrite <- (take_drop j label).
      rewrite last_app, Hc. done. }
    destruct (label_rest_no_leader (drop j label)
                (blanks ++ leaders ++ value) n Hu
                (Forall_drop _ j _ Hnl) Hulast Hspaces)
      as (d & ds & -> & Hd).
    simpl. by rewrite Hd.
  - apply rep_greedy_prefix; [done|lia| |].
    { intros c Hc. apply leader_not_space.
      destruct leaders as [|d leaders]; [simpl in Hlen; lia|].
      apply Forall_cons in Hleaders as [Hd _]. simpl in Hc.
      by injection Hc as <-. }
    apply rep_greedy_prefix; [done|done|done|].
    apply rep_greedy_lstrip.
    pose proof (lstrip_by_length Str.isspace value) as Hlv.
    apply rep_greedy_full.
    + by apply lstrip_by_Forall.
    + destruct (Str.lstrip_by Str.isspace value); [done|simpl; lia].
    + simpl. f_equal. rewrite !length_app. rewrite pair_equal_spec.
      split; [lia|].
      rewrite Nat.sub_0_r, take_app_length. f_equal. f_equal.
      apply take_ge. lia.
Qed.

(** A line without a colon that, with the bullets and the blanks around it
    removed, reads as a label, blanks or none, two leaders or more and a value
    is stored under that label with that value, both trimmed: the label holds
    neither a dot nor a hyphen and does not end with a blank, and the value
    does not start with a dot or a hyphen. *)
Theorem dotted_line_stored (raw label blanks leaders value : pystr)
    (data : gmap pystr pystr) :
  Parser.clean_line raw = label ++ blanks ++ leaders ++ value →
  label ≠ [] → Forall (λ c, Parser.key_class c = true) label →
  Forall (λ c, Parser.leader_class c = false) label →
  (∀ c, last label = Some c → Str.isspace c = false) →
  Forall (λ c, Str.isspace c = true) blanks →
  Forall (λ c, Parser.leader_class c = true) leaders →
  (2 ≤ length leaders)%nat →
  (∀ c, head value = Some c → Parser.leader_class c = false) →
  Forall (λ c, c ≠ 10 ∧ Parser.colon_class c = false) value →
  Str.strip value ≠ [] →
  Parser.parse_line (label ++ blanks ++ leaders ++ value)
  = Some (Parser.DottedLeader, (Str.strip label, Str.strip value))
  ∧ Parser.add_line data raw = <[ Str.strip label := Str.strip value ]> data.
Proof.
  intros Hclean Hne Hkey Hnl Hlast Hblanks Hleaders Hlen Hhead Hvalue Hstrip.
  assert (Hparse : Parser.parse_line (label ++ blanks ++ leaders ++ value)
            = Some (Parser.DottedLeader, (Str.strip label, Str.strip value))).
  { unfold Parser.parse_line. rewrite colon_no_match.
    - destruct (dots_match label blanks leaders value) as [e ->]; try done.
      + eapply Forall_impl; [exact Hvalue|]. intros d [Hd _]. unfold Re.dot.
        by destruct (N.eqb_spec d 10).
      + intros Hnil. apply Hstrip. unfold Str.strip, Str.strip_by.
        by rewrite Hnil.
      + unfold Parser.groups_entry. simpl. unfold Str.strip.
        by rewrite strip_by_lstrip.
    - rewrite !Forall_app. repeat split.
      + eapply Forall_impl; [exact Hkey|]. apply key_class_not_colon.
      + eapply Forall_impl; [exact Hblanks|]. apply space_not_colon.
      + eapply Forall_impl; [exact Hleaders|]. apply leader_not_colon.
      + eapply Forall_impl; [exact Hvalue|]. by intros d [_ Hd]. }
  split; [done|]. unfold Parser.add_line. rewrite Hclean.
  destruct label as [|d label]; [done|]. simpl in Hparse |- *.
  by rewrite Hparse.
Qed.

Lemma dotted_line_stored_witness :
  Parser.parse_line (py "Home City" ++ [32] ++ py "....." ++ py " Lahore")
  = Some (Parser.DottedLeader,
          (Str.strip (py "Home City"), Str.strip (py " Lahore")))
  ∧ Parser.add_line ∅ ([8226; 32] ++ py "Home City ..... Lahore ")
    = <[ Str.strip (py "Home City") := Str.strip (py " Lahore") ]> ∅.
Proof.
  refine (dotted_line_stored ([8226; 32] ++ py "Home City ..... Lahore ")
            (py "Home City") [32] (py ".....") (py " Lahore") ∅
            _ _ _ _ _ _ _ _ _ _ _).
  - vm_compute. reflexivity.
  - discriminate.
  - repeat constructor.
  - repeat constructor.
  - intros c [= <-]. reflexivity.
  - repeat constructor.
  - repeat constructor.
  - simpl. lia.
  - intros c [= <-]. reflexivity.
  - repeat (constructor; [split; [discriminate|reflexivity]|]). constructor.
  - vm_compute. discriminate.
Defined.
